(** * Real-time feed distribution of the TikTok-style backend

    A shallow embedding of the backend files of
    [tiktok_clone_react_node_redis.jsx]: [socket.js] (room registration),
    [server.js] (the cron trigger), [trendingJob.js] ([processTrending]),
    [controllers/userController.js] ([follow]) and
    [controllers/videoController.js] ([uploadVideo], [likeVideo]).

    Handlers are written in a small state-and-exception monad over a
    [World] that holds the two Mongo collections, the process environment,
    the clock, the console and the list of emits handed to Socket.IO. *)

From Stdlib Require Import ZArith Lia Ascii String.
From stdpp Require Import gmap strings list sorting pretty.

Set Warnings "-clear-no-such-hyp".

Local Open Scope Z_scope.
Local Open Scope string_scope.
Local Open Scope list_scope.

(** ** Socket.IO rooms (socket.js)

    The handlers of [setupSocket] only call [socket.join]; the room tables
    themselves are those of Socket.IO's in-memory adapter, which the Redis
    adapter extends: [rooms : Map<Room, Set<SocketId>>] and
    [sids : Map<SocketId, Set<Room>>]. The [console.log] lines of the
    handlers do not touch the tables and are left out here. *)

Module Rooms.

Record Adapter := mkAdapter {
  rooms : gmap string (gset string);
  sids : gmap string (gset string)
}.

Definition empty : Adapter := mkAdapter ∅ ∅.

(** [membersOf]: the sockets of a room; a room that is absent has none. *)
Definition membersOf (a : Adapter) (room : string) : gset string :=
  default ∅ (rooms a !! room).

Definition roomsOf (a : Adapter) (sid : string) : gset string :=
  default ∅ (sids a !! sid).

(** [adapter.addAll(id, [room])]: both tables gain the pair, a missing
    entry is created. *)
Definition add (a : Adapter) (sid room : string) : Adapter :=
  mkAdapter (<[room := {[sid]} ∪ membersOf a room]> (rooms a))
            (<[sid := {[room]} ∪ roomsOf a sid]> (sids a)).

(** [adapter._del(room, id)]: the socket leaves the room and a room left
    empty is deleted from the table. *)
Definition del_room (rs : gmap string (gset string)) (room sid : string)
  : gmap string (gset string) :=
  match rs !! room with
  | None => rs
  | Some m =>
      let m' := m ∖ {[sid]} in
      if decide (m' = ∅) then delete room rs else <[room := m']> rs
  end.

(** [adapter.delAll(id)]: leave every room recorded for the socket, then
    drop its record. *)
Definition delAll (a : Adapter) (sid : string) : Adapter :=
  match sids a !! sid with
  | None => a
  | Some rs =>
      mkAdapter (set_fold (λ room acc, del_room acc room sid) (rooms a) rs)
                (delete sid (sids a))
  end.

(** A socket is connected exactly when the adapter has a record for it. *)
Definition connected (a : Adapter) (sid : string) : Prop :=
  is_Some (sids a !! sid).

#[global] Instance connected_dec a sid : Decision (connected a sid).
Proof. unfold connected. apply _. Defined.

(** [io.on("connection", socket => ...)]: Socket.IO has the new socket join
    the room named by its own id before the handlers are installed. *)
Definition onConnection (a : Adapter) (sid : string) : Adapter :=
  add a sid sid.

(** [socket.on("register", userId => ...)]: two joins, nothing is left.
    The handler exists only on a connected socket. *)
Definition onRegister (a : Adapter) (sid userId : string) : Adapter :=
  if decide (connected a sid)
  then add (add a sid ("user_" +:+ userId)) sid "trending"
  else a.

(** [socket.on("disconnect", ...)]: the handler only logs; by the time it
    runs Socket.IO has already called [leaveAll] for the socket. *)
Definition onDisconnect (a : Adapter) (sid : string) : Adapter :=
  delAll a sid.

Inductive Event :=
| Connect (sid : string)
| Register (sid userId : string)
| Disconnect (sid : string).

Definition step (a : Adapter) (e : Event) : Adapter :=
  match e with
  | Connect sid => onConnection a sid
  | Register sid userId => onRegister a sid userId
  | Disconnect sid => onDisconnect a sid
  end.

Definition run (a : Adapter) (es : list Event) : Adapter :=
  foldl step a es.

(** The two tables describe the same relation. *)
Definition wf (a : Adapter) : Prop :=
  ∀ sid room, sid ∈ membersOf a room ↔ room ∈ roomsOf a sid.

(** Personal rooms, and the reading of [identify] under which a socket
    sits in at most one of them. *)
Definition personal (room : string) : Prop :=
  ∃ uid, room = "user_" +:+ uid.

Definition one_personal_room (a : Adapter) (sid : string) : Prop :=
  ∀ r1 r2, personal r1 → personal r2 →
    sid ∈ membersOf a r1 → sid ∈ membersOf a r2 → r1 = r2.

End Rooms.

(** ** Documents (models/User.js, models/Video.js)

    ObjectIds are kept as the strings the handlers receive and interpolate
    into room names. Both schemas set [timestamps: true]; a timestamp is
    absent until the first save. *)

Record Comment := mkComment { c_user : string; c_text : string }.

Record Video := mkVideo {
  v_id : string;
  title : string;
  url : string;
  user : string;
  likes : option Z;
  comments : list Comment;
  v_createdAt : option Z;
  v_updatedAt : option Z
}.

Record User := mkUser {
  u_id : string;
  username : string;
  email : string;
  passwordHash : string;
  followers : option (list string);
  following : option (list string);
  u_createdAt : option Z;
  u_updatedAt : option Z
}.

Definition is_hex (c : ascii) : bool :=
  let n := nat_of_ascii c in
  bool_decide ((48 ≤ n ∧ n ≤ 57) ∨ (65 ≤ n ∧ n ≤ 70) ∨ (97 ≤ n ∧ n ≤ 102))%nat.

(** The strings every version of mongoose casts to an ObjectId: 24
    hexadecimal digits. The data-store operations below are written for
    ids that cast; a string that does not cast makes the real call
    reject before it reaches the store, which they do not describe. *)
Definition is_ObjectId (s : string) : bool :=
  bool_decide (String.length s = 24%nat) &&
  forallb is_hex (list_ascii_of_string s).

Class Document (D : Type) := doc_id : D → string.
#[global] Instance Video_Document : Document Video := v_id.
#[global] Instance User_Document : Document User := u_id.

Section Collection.
Context {D : Type} `{Document D}.

(** [Model.findById(id)]: the first document with that id, else null. *)
Fixpoint findById (id : string) (ds : list D) : option D :=
  match ds with
  | [] => None
  | d :: ds' => if decide (doc_id d = id) then Some d else findById id ds'
  end.

(** Update in place of the first document with that id; a collection
    without such a document is left as it is. *)
Fixpoint updateById (id : string) (f : D → D) (ds : list D) : list D :=
  match ds with
  | [] => []
  | d :: ds' =>
      if decide (doc_id d = id) then f d :: ds' else d :: updateById id f ds'
  end.
End Collection.

(** ** JavaScript values the handlers compute with *)

Inductive JsNum := NaN | Num (z : Z).

Definition is_space (c : ascii) : bool :=
  let n := nat_of_ascii c in
  bool_decide (n = 32 ∨ (9 ≤ n ∧ n ≤ 13))%nat.

Fixpoint ltrim (s : string) : string :=
  match s with
  | String c s' => if is_space c then ltrim s' else s
  | EmptyString => EmptyString
  end.

Definition trim (s : string) : string :=
  String.rev (ltrim (String.rev (ltrim s))).

Definition digit_of (c : ascii) : option Z :=
  let n := Z.of_nat (nat_of_ascii c) in
  if decide (48 ≤ n ≤ 57)%Z then Some (n - 48) else None.

Fixpoint digits (acc : Z) (s : string) : option Z :=
  match s with
  | EmptyString => Some acc
  | String c s' =>
      match digit_of c with
      | Some d => digits (10 * acc + d) s'
      | None => None
      end
  end.

Definition unsigned (s : string) : option Z :=
  match s with
  | EmptyString => None
  | _ => digits 0 s
  end.

(** A JavaScript number is a double. It holds every integer up to 2^53
    in magnitude; a larger integer is rounded to 53 significant bits, a
    tie going to the even mantissa (magnitudes stay far below 2^1024
    here, so nothing overflows). *)
Definition round_double (z : Z) : Z :=
  let m := Z.abs z in
  if decide (m ≤ 2 ^ 53)%Z then z
  else
    let e := (Z.log2 m - 52)%Z in
    let q := Z.shiftr m e in
    let r := (m - Z.shiftl q e)%Z in
    let half := Z.shiftl 1 (e - 1) in
    let up := bool_decide (half < r ∨ (r = half ∧ Z.odd q = true))%Z in
    (Z.sgn z * Z.shiftl (if up then q + 1 else q) e)%Z.

(** [Number(s)] on a string that is a decimal integer: white space is
    trimmed, an empty string is 0, a sign is allowed, and the value is
    the nearest double. This is the only form of numeric string the
    development reads a threshold from: the other forms [Number] accepts
    (fraction, exponent, radix prefix, Infinity) are not parsed, and the
    properties below that depend on the parse are stated for decimal
    integers. *)
Definition Number_of_string (s : string) : JsNum :=
  match trim s with
  | EmptyString => Num 0
  | String "+"%char r => from_option (λ z, Num (round_double z)) NaN (unsigned r)
  | String "-"%char r =>
      from_option (λ z, Num (round_double (- z))) NaN (unsigned r)
  | t => from_option (λ z, Num (round_double z)) NaN (unsigned t)
  end.

(** Decimal numerals: the string of a list of digits and its value. *)
Definition digit_char (d : nat) : ascii := ascii_of_nat (48 + d).

Fixpoint numeral (ds : list nat) : string :=
  match ds with
  | [] => EmptyString
  | d :: ds' => String (digit_char d) (numeral ds')
  end.

Definition numeral_value (ds : list nat) : Z :=
  foldl (λ acc d, 10 * acc + Z.of_nat d)%Z 0%Z ds.

(** [x + 1] on a number that holds an integer. *)
Definition js_add1 (x : Z) : Z := round_double (x + 1).

(** [x || 0] on a [likes] field: undefined and 0 are falsy. *)
Definition or_zero (x : option Z) : Z :=
  match x with
  | None => 0
  | Some n => if decide (n = 0) then 0 else n
  end.

(** [xs || []] on an array field: an array, even empty, is truthy. *)
Definition or_empty {A} (xs : option (list A)) : list A := default [] xs.

Record JsError := mkError { name : string; message : string }.

(** ** The world the handlers run in *)

Record Emit := mkEmit { room : string; event : string; payload : Video }.

(** The [io] object: [io.to(room).emit(event, payload)] either hands the
    packet to the adapter or throws. *)
Record Io := mkIo { io_fault : Emit → option JsError }.

Definition reliable : Io := mkIo (λ _, None).

Record World := mkWorld {
  videos : list Video;
  users : list User;
  env : gmap string string;
  clock : Z;
  oid_counter : N;
  console : list string;
  emitted : list Emit;
  finds : nat
}.

Inductive Outcome (A : Type) :=
| Return (a : A)
| Throw (e : JsError).
Arguments Return {A} a.
Arguments Throw {A} e.

Definition M (A : Type) : Type := World → Outcome A * World.

Definition ret {A} (a : A) : M A := λ w, (Return a, w).
Definition throw {A} (e : JsError) : M A := λ w, (Throw e, w).

Definition bind {A B} (m : M A) (k : A → M B) : M B :=
  λ w, match m w with
       | (Return a, w') => k a w'
       | (Throw e, w') => (Throw e, w')
       end.

(** [try { m } catch (err) { h err }] *)
Definition try_catch {A} (m : M A) (h : JsError → M A) : M A :=
  λ w, match m w with
       | (Return a, w') => (Return a, w')
       | (Throw e, w') => h e w'
       end.

Definition gets {A} (f : World → A) : M A := λ w, (Return (f w), w).
Definition modify (f : World → World) : M unit := λ w, (Return tt, f w).

#[global] Instance M_ret : MRet M := @ret.
#[global] Instance M_bind : MBind M := λ A B k m, bind m k.

(** [xs.forEach(f)]: in order; an exception leaves the loop. *)
Fixpoint forEach {A} (xs : list A) (f : A → M unit) : M unit :=
  match xs with
  | [] => ret tt
  | x :: xs' => f x;; forEach xs' f
  end.

Definition set_videos (vs : list Video) (w : World) : World :=
  mkWorld vs (users w) (env w) (clock w) (oid_counter w) (console w)
          (emitted w) (finds w).
Definition set_users (us : list User) (w : World) : World :=
  mkWorld (videos w) us (env w) (clock w) (oid_counter w) (console w)
          (emitted w) (finds w).
Definition set_oid_counter (n : N) (w : World) : World :=
  mkWorld (videos w) (users w) (env w) (clock w) n (console w)
          (emitted w) (finds w).
Definition set_console (c : list string) (w : World) : World :=
  mkWorld (videos w) (users w) (env w) (clock w) (oid_counter w) c
          (emitted w) (finds w).
Definition set_emitted (es : list Emit) (w : World) : World :=
  mkWorld (videos w) (users w) (env w) (clock w) (oid_counter w) (console w)
          es (finds w).
Definition set_finds (n : nat) (w : World) : World :=
  mkWorld (videos w) (users w) (env w) (clock w) (oid_counter w) (console w)
          (emitted w) n.

Definition console_log (line : string) : M unit :=
  modify (λ w, set_console (console w ++ [line]) w).

(** [io.to(room).emit(event, payload)] *)
Definition emit_packet (io : Io) (e : Emit) : M unit :=
  match io_fault io e with
  | Some err => throw err
  | None => modify (λ w, set_emitted (emitted w ++ [e]) w)
  end.

Definition emit (io : Io) (r ev : string) (v : Video) : M unit :=
  emit_packet io (mkEmit r ev v).

(** What a loop of emits leaves behind: the packets handed over before
    the first throw, and that throw. *)
Fixpoint delivered (io : Io) (es : list Emit) : list Emit :=
  match es with
  | [] => []
  | e :: es' =>
      match io_fault io e with
      | Some _ => []
      | None => e :: delivered io es'
      end
  end.

Fixpoint first_fault (io : Io) (es : list Emit) : option JsError :=
  match es with
  | [] => None
  | e :: es' =>
      match io_fault io e with
      | Some err => Some err
      | None => first_fault io es'
      end
  end.

(** ** Data-store operations (mongoose) *)

Definition ObjectId (n : N) : string := "oid" +:+ pretty n.

(** [new Video({ title, url, user })]: a fresh id and the schema defaults. *)
Definition new_Video (t u owner : string) : M Video :=
  n ← gets oid_counter;
  modify (set_oid_counter (n + 1)%N);;
  mret (mkVideo (ObjectId n) t u owner (Some 0) [] None None).

Definition stamp_video (created updated : option Z) (v : Video) : Video :=
  mkVideo (v_id v) (title v) (url v) (user v) (likes v) (comments v)
          created updated.

Definition set_likes (n : Z) (v : Video) : Video :=
  mkVideo (v_id v) (title v) (url v) (user v) (Some n) (comments v)
          (v_createdAt v) (v_updatedAt v).

(** [video.save()] on a document made by [new], whose [user] casts to an
    ObjectId (see [is_ObjectId]): an insert, both timestamps are set. The
    document in hand is the one stored. *)
Definition save_new (v : Video) : M Video :=
  now ← gets clock;
  let v' := stamp_video (Some now) (Some now) v in
  modify (λ w, set_videos (videos w ++ [v']) w);;
  mret v'.

(** [video.save()] on a document that was found and modified: the stored
    document is brought up to date and [updatedAt] is refreshed. *)
Definition save_existing (v : Video) : M Video :=
  now ← gets clock;
  let v' := stamp_video (v_createdAt v) (Some now) v in
  modify (λ w, set_videos (updateById (v_id v) (λ _, v') (videos w)) w);;
  mret v'.

(** [video.save()] after an assignment to [likes]: when the assigned
    value is the one the document had, no path is modified, nothing is
    written and [updatedAt] stays. *)
Definition save_changes (before after : Video) : M Video :=
  if decide (likes before = likes after) then mret after
  else save_existing after.

(** The filter [{ likes: { $gte: t } }]: a document without [likes] does
    not match. *)
Definition gte (t : Z) (v : Video) : Prop :=
  match likes v with
  | Some n => (t ≤ n)%Z
  | None => False
  end.

#[global] Instance gte_dec t v : Decision (gte t v).
Proof. unfold gte. destruct (likes v); apply _. Defined.

Definition likes_key (v : Video) : Z := default 0 (likes v).

(** The order of [.sort({ likes: -1 })]: [a] may come before [b]. *)
Definition likes_desc (a b : Video) : Prop := (likes_key b ≤ likes_key a)%Z.

#[global] Instance likes_desc_dec a b : Decision (likes_desc a b).
Proof. unfold likes_desc. apply _. Defined.

Definition find_gte_sorted (t : Z) (limit : nat) (vs : list Video)
  : list Video :=
  take limit (merge_sort likes_desc (filter (gte t) vs)).

Definition cast_error : JsError :=
  mkError "CastError" "Cast to Number failed for value NaN".

(** A [Video.find(...)] leaves the process: counted when it is sent. *)
Definition issue_find : M unit :=
  modify (λ w, set_finds (S (finds w)) w).

(** Mongoose casts the filter [{ likes: { $gte: t } }] before the query
    leaves the process: a number is sent, NaN is refused and nothing is
    sent (the refusal surfaces at the [await], see [find_result]). *)
Definition send_find_gte (t : JsNum) : M unit :=
  match t with
  | NaN => mret tt
  | Num _ => issue_find
  end.

(** [await Video.find({ likes: { $gte: t } }).sort({ likes: -1 }).limit(n)]
    once the query is answered. Mongoose refuses to cast NaN to the Number
    path [likes] and the promise is rejected. *)
Definition find_result (t : JsNum) (limit : nat) : M (list Video) :=
  match t with
  | NaN => throw cast_error
  | Num z => gets (λ w, find_gte_sorted z limit (videos w))
  end.

Definition touch_user (now : Z) (u : User) : User :=
  mkUser (u_id u) (username u) (email u) (passwordHash u) (followers u)
         (following u) (u_createdAt u) (Some now).

(** [{ $addToSet: { field: x } }]: appended unless already there; a
    missing field becomes a one-element array. *)
Definition addToSet (x : string) (xs : option (list string))
  : option (list string) :=
  let l := or_empty xs in
  Some (if decide (x ∈ l) then l else l ++ [x]).

Definition addToSet_followers (x : string) (u : User) : User :=
  mkUser (u_id u) (username u) (email u) (passwordHash u)
         (addToSet x (followers u)) (following u)
         (u_createdAt u) (u_updatedAt u).

Definition addToSet_following (x : string) (u : User) : User :=
  mkUser (u_id u) (username u) (email u) (passwordHash u)
         (followers u) (addToSet x (following u))
         (u_createdAt u) (u_updatedAt u).

(** [User.findByIdAndUpdate(id, update)] for an id that casts to an
    ObjectId (see [is_ObjectId]): no document, no change; the timestamps
    plugin refreshes [updatedAt] of the document it updates. *)
Definition findByIdAndUpdate (id : string) (f : User → User) : M unit :=
  now ← gets clock;
  modify (λ w, set_users (updateById id (λ u, touch_user now (f u)) (users w)) w).

(** ** HTTP *)

Inductive Body :=
| JVideo (v : Video)
| JVideos (vs : list Video)
| JError (error : string)
| JOk.

Record Response := mkResponse { status : nat; body : Body }.

(** [res.json(x)] answers with status 200 unless [res.status] was called. *)
Definition json (b : Body) : Response := mkResponse 200 b.

Record File := mkFile { filename : string }.

Record UploadReq := mkUploadReq {
  up_title : string;
  up_userId : string;
  up_file : option File;
  up_io : Io
}.

Record FollowReq := mkFollowReq { userId : string; targetId : string }.

(** ** controllers/userController.js *)

Definition follow (req : FollowReq) : M Response :=
  try_catch
    (if decide (userId req = targetId req)
     then mret (mkResponse 400 (JError "Invalid"))
     else
       findByIdAndUpdate (targetId req) (addToSet_followers (userId req));;
       findByIdAndUpdate (userId req) (addToSet_following (targetId req));;
       mret (json JOk))
    (λ err, mret (mkResponse 400 (JError (message err)))).

(** ** controllers/videoController.js *)

Definition null_followers : JsError :=
  mkError "TypeError" "Cannot read properties of null (reading 'followers')".

Definition null_likes : JsError :=
  mkError "TypeError" "Cannot read properties of null (reading 'likes')".

Definition uploadVideo (req : UploadReq) : M Response :=
  try_catch
    (match up_file req with
     | None => mret (mkResponse 400 (JError "No file"))
     | Some file =>
         video ← new_Video (up_title req) ("/uploads/" +:+ filename file)
                           (up_userId req);
         video ← save_new video;
         owner ← gets (λ w, findById (up_userId req) (users w));
         match owner with
         | None => throw null_followers
         | Some u =>
             forEach (or_empty (followers u))
                     (λ f, emit (up_io req) ("user_" +:+ f)
                                "feed-update-following" video);;
             mret (json (JVideo video))
         end
     end)
    (λ err, mret (mkResponse 500 (JError (message err)))).

Definition likeVideo (id : string) : M Response :=
  try_catch
    (found ← gets (λ w, findById id (videos w));
     match found with
     | None => throw null_likes
     | Some video =>
         video ← save_changes video
                   (set_likes (js_add1 (or_zero (likes video))) video);
         mret (json (JVideo video))
     end)
    (λ err, mret (mkResponse 400 (JError (message err)))).

(** [Number(process.env.TREND_THRESHOLD || 50)]: an unset or empty
    variable is falsy and gives the number 50. *)
Definition threshold_of (e : gmap string string) : JsNum :=
  match e !! "TREND_THRESHOLD" with
  | None => Num 50
  | Some s => if decide (s = "") then Num 50 else Number_of_string s
  end.

(** No [try] here: a rejected query leaves the handler as a rejection. *)
Definition getTrending : M Response :=
  threshold ← gets (λ w, threshold_of (env w));
  send_find_gte threshold;;
  vs ← find_result threshold 20;
  mret (json (JVideos vs)).

(** ** trendingJob.js

    [processTrending] has one suspension point, the [await] of the query;
    [trending_begin] is the part before it and [trending_resume] the part
    after it. *)

Definition trending_begin : M JsNum :=
  threshold ← gets (λ w, threshold_of (env w));
  send_find_gte threshold;;
  mret threshold.

Definition trending_resume (io : Io) (threshold : JsNum) : M unit :=
  trending ← find_result threshold 10;
  forEach trending (λ v, emit io "trending" "feed-update-trending" v).

(** The packet the loop emits for one video. *)
Definition trending_packet (v : Video) : Emit :=
  mkEmit "trending" "feed-update-trending" v.

Definition trending_error (err : JsError) : M unit :=
  console_log ("Trending job error " +:+ message err).

Definition processTrending (io : Io) : M unit :=
  try_catch
    (threshold ← trending_begin; trending_resume io threshold)
    trending_error.

(** The console line of the job's [catch]. *)
Definition job_error_line (err : JsError) : string :=
  "Trending job error " +:+ message err.

(** The world once the job's query has been sent, or refused. *)
Definition after_send (w : World) : World :=
  match threshold_of (env w) with
  | NaN => w
  | Num _ => set_finds (S (finds w)) w
  end.

(** The world a finished run of the job leaves. *)
Definition after_job (io : Io) (w : World) : World :=
  let sent := set_finds (S (finds w)) w in
  match threshold_of (env w) with
  | NaN => set_console (console w ++ [job_error_line cast_error]) w
  | Num t =>
      let ps := trending_packet <$> find_gte_sorted t 10 (videos w) in
      let w1 := set_emitted (emitted w ++ delivered io ps) sent in
      match first_fault io ps with
      | None => w1
      | Some err => set_console (console w ++ [job_error_line err]) w1
      end
  end.

(** ** Worked inputs *)

Definition ann_id : string := "64a1f0c2b3d4e5f6a7b8c901".
Definition bob_id : string := "64a1f0c2b3d4e5f6a7b8c902".
Definition cid_id : string := "64a1f0c2b3d4e5f6a7b8c903".

(** Ann follows Bob; Bob and Cid have one video each. *)
Definition feed_world : World :=
  mkWorld [mkVideo "64a1f0c2b3d4e5f6a7b8ca01" "by bob" "/uploads/b1" bob_id
                   (Some 3) [] (Some 10) (Some 12);
           mkVideo "64a1f0c2b3d4e5f6a7b8ca02" "by cid" "/uploads/c1" cid_id
                   (Some 0) [] (Some 11) (Some 11)]
          [mkUser ann_id "ann" "ann@example.org" "h1" (Some []) (Some [bob_id])
                  (Some 0) (Some 5);
           mkUser bob_id "bob" "bob@example.org" "h2" (Some [ann_id]) (Some [])
                  (Some 0) (Some 5)]
          ∅ 20 0 [] [] 0.

Definition clip (id : string) (n : Z) : Video :=
  mkVideo id "clip" ("/uploads/" +:+ id) "owner" (Some n) [] (Some 0) (Some 0).

Definition example_world : World :=
  mkWorld [clip "a" 80; clip "b" 60; clip "c" 40; clip "d" 90]
          [] ∅ 0 0 [] [] 0.

(** An [io] whose emit throws for the video with 80 likes. *)
Definition relay_unavailable : JsError := mkError "Error" "RelayUnavailable".

Definition flaky : Io :=
  mkIo (λ e, if decide (likes (payload e) = Some 80)
             then Some relay_unavailable else None).

(** Eleven videos above any small threshold. *)
Definition crowded_world (e : gmap string string) : World :=
  mkWorld ((λ n, clip (pretty n) 100) <$> seq 0 11) [] e 0 0 [] [] 0.

Definition set_env (e : gmap string string) (w : World) : World :=
  mkWorld (videos w) (users w) e (clock w) (oid_counter w) (console w)
          (emitted w) (finds w).

(** The reading under which a throw for one video does not stop the
    emits for the others of the run. *)
Definition publish_independent (io : Io) (w : World) : Prop :=
  ∀ t v, threshold_of (env w) = Num t →
    v ∈ find_gte_sorted t 10 (videos w) →
    io_fault io (trending_packet v) = None →
    trending_packet v ∈ emitted (processTrending io w).2.

(** The reading under which some environment lifts the cap of the job. *)
Definition topN_overridable : Prop :=
  ∃ e, (10 < length (emitted (processTrending reliable (crowded_world e)).2))%nat.

(** The packet [uploadVideo] emits to one follower. *)
Definition following_packet (video : Video) (f : string) : Emit :=
  mkEmit ("user_" +:+ f) "feed-update-following" video.

(** The document [uploadVideo] stores for a request, given the file. *)
Definition uploaded (req : UploadReq) (file : File) (w : World) : Video :=
  mkVideo (ObjectId (oid_counter w)) (up_title req)
          ("/uploads/" +:+ filename file) (up_userId req) (Some 0) []
          (Some (clock w)) (Some (clock w)).

(** The reading under which an upload with a file is answered with the
    saved video even when its owner cannot be found. *)
Definition upload_survives_unknown_owner (req : UploadReq) (w : World) : Prop :=
  is_Some (up_file req) →
  findById (up_userId req) (users w) = None →
  ∃ video w', uploadVideo req w = (Return (json (JVideo video)), w').

Definition ghost_upload : UploadReq :=
  mkUploadReq "first clip" "64a1f0c2b3d4e5f6a7b8c9d0" (Some (mkFile "f1"))
              reliable.

(** The video [likeVideo] stores and answers with, given the one found. *)
Definition liked (now : Z) (v : Video) : Video :=
  mkVideo (v_id v) (title v) (url v) (user v)
          (Some (js_add1 (or_zero (likes v))))
          (comments v) (v_createdAt v) (Some now).

(** The counts a double holds exactly together with their successor. *)
Definition countable (n : Z) : Prop := (- 2 ^ 53 ≤ n < 2 ^ 53)%Z.

(** The reading under which one like always adds exactly one. *)
Definition like_adds_one (id : string) (w : World) : Prop :=
  ∀ v, findById id (videos w) = Some v →
    ∃ v', findById id (videos (likeVideo id w).2) = Some v' ∧
          likes v' = Some (default 0 (likes v) + 1)%Z.

(** A store whose one video has 2^53 likes. *)
Definition saturated_world : World :=
  mkWorld [clip "a" (2 ^ 53)] [] ∅ 9 0 [] [] 0.

Definition set_clock (c : Z) (w : World) : World :=
  mkWorld (videos w) (users w) (env w) c (oid_counter w) (console w)
          (emitted w) (finds w).

(** What [follow] can change of a user, apart from [updatedAt]. *)
Definition follow_view (u : User) : string * option (list string) * option (list string) :=
  (u_id u, followers u, following u).

(** Two users who do not follow each other yet. *)
Definition social_world : World :=
  mkWorld []
          [mkUser "u1" "ann" "ann@example.org" "h1" (Some []) (Some []) (Some 0) (Some 0);
           mkUser "u2" "bob" "bob@example.org" "h2" (Some []) (Some []) (Some 0) (Some 0)]
          ∅ 5 0 [] [] 0.

(** ** server.js: the cron trigger *)

Definition cron_expression : string := "*/2 * * * *".

(** node-cron, as far as such an expression needs it: five fields
    separated by white space, for minute, hour, day of the month, month
    and day of the week; the field [*] matches every value and [*/k]
    every value that is a multiple of [k]. *)
Record Moment := mkMoment {
  minute : nat; hour : nat; day : nat; month : nat; weekday : nat
}.

Definition field_matches (field : string) (value : nat) : bool :=
  match field with
  | String "*"%char EmptyString => true
  | String "*"%char (String "/"%char k) =>
      match unsigned k with
      | Some (Zpos p) => bool_decide (value `mod` Pos.to_nat p = 0)%nat
      | _ => false
      end
  | _ => false
  end.

Definition cron_fires (expr : string) (m : Moment) : bool :=
  match String.words expr with
  | [f1; f2; f3; f4; f5] =>
      field_matches f1 (minute m) && field_matches f2 (hour m) &&
      field_matches f3 (day m) && field_matches f4 (month m) &&
      field_matches f5 (weekday m)
  | _ => false
  end.

(** [cron.schedule(cron_expression, callback)]: the minutes at which the
    callback is called. The environment is not consulted. *)
Definition job_fires (e : gmap string string) (m : Moment) : bool :=
  cron_fires cron_expression m.

(** The callback given to [cron.schedule], run to completion. *)
Definition cron_callback (io : Io) : M unit :=
  console_log "Running trending job...";;
  processTrending io.

(** node-cron calls the callback at every tick and does not wait for the
    promise of the previous call. A run is suspended between its query and
    the answer; [inflight] holds the suspended runs, oldest first, each
    with the threshold it read. An answer resumes the oldest run with the
    result of its query on the store as it then is. *)
Module Cron.

Record State := mkState { world : World; inflight : list JsNum }.

Inductive Signal :=
| Tick
| Answer.

#[global] Instance Signal_eq_dec : EqDecision Signal.
Proof. solve_decision. Defined.

Definition step (io : Io) (s : State) (sig : Signal) : State :=
  match sig with
  | Tick =>
      match (console_log "Running trending job...";; trending_begin) (world s) with
      | (Return threshold, w') => mkState w' (inflight s ++ [threshold])
      | (Throw _, w') => mkState w' (inflight s)
      end
  | Answer =>
      match inflight s with
      | [] => s
      | threshold :: rest =>
          mkState
            (try_catch (trending_resume io threshold) trending_error (world s)).2
            rest
      end
  end.

Definition run (io : Io) (s : State) (sigs : list Signal) : State :=
  foldl (step io) s sigs.

Definition ticks (sigs : list Signal) : nat :=
  length (filter (λ sig, sig = Tick) sigs).

(** The reading under which a tick during a run is skipped. *)
Definition skips_overlap (io : Io) (s : State) : Prop :=
  inflight s ≠ [] →
  finds (world (step io s Tick)) = finds (world s) ∧
  inflight (step io s Tick) = inflight s.

End Cron.

(** ** More of the controllers *)

Definition null_following : JsError :=
  mkError "TypeError" "Cannot read properties of null (reading 'following')".

(** The filter [{ user: { $in: fs } }]. *)
Definition owned_by (fs : list string) (v : Video) : Prop := user v ∈ fs.

#[global] Instance owned_by_dec fs v : Decision (owned_by fs v).
Proof. unfold owned_by. apply _. Defined.

(** The order of [.sort({ createdAt: -1 })]: [a] may come before [b]; a
    document without the field sorts as null, after every date. *)
Definition created_desc (a b : Video) : Prop :=
  match v_createdAt b, v_createdAt a with
  | None, _ => True
  | Some y, Some x => (y ≤ x)%Z
  | Some _, None => False
  end.

#[global] Instance created_desc_dec a b : Decision (created_desc a b).
Proof.
  unfold created_desc. destruct (v_createdAt b), (v_createdAt a); apply _.
Defined.

Definition find_by_owners (fs : list string) (vs : list Video) : list Video :=
  merge_sort created_desc (filter (owned_by fs) vs).

(** userController.js, [getFollowingVideos] *)
Definition getFollowingVideos (uid : string) : M Response :=
  try_catch
    (found ← gets (λ w, findById uid (users w));
     match found with
     | None => throw null_following
     | Some u =>
         let fs := or_empty (following u) in
         issue_find;;
         vs ← gets (λ w, find_by_owners fs (videos w));
         mret (json (JVideos vs))
     end)
    (λ err, mret (mkResponse 400 (JError (message err)))).

(** videoController.js, [getAllVideos]: no [try]. *)
Definition getAllVideos : M Response :=
  issue_find;;
  vs ← gets (λ w, take 50 (merge_sort created_desc (videos w)));
  mret (json (JVideos vs)).

(** ** Delivery and the pages

    [io.to(room).emit(...)] addresses the sockets that are members of the
    room when the packet is sent. *)

Definition recipients (a : Rooms.Adapter) (e : Emit) : gset string :=
  Rooms.membersOf a (room e).

(** Feed.jsx, TrendingFeed.jsx, FollowingFeed.jsx:
    [socket.on(ev, v => setVideos(prev => [v, ...prev]))]. *)
Module Feed.

Definition on_update (v : Video) (prev : list Video) : list Video :=
  v :: prev.

(** The list of a page that listens to [ev], after the packets [es] have
    reached its socket in that order. *)
Definition receive (ev : string) (prev : list Video) (es : list Emit)
  : list Video :=
  foldl (λ p e, if decide (event e = ev) then on_update (payload e) p else p)
        prev es.

End Feed.

(** ** Runs and repetitions *)

(** The packets one run of the job adds to the emits. *)
Definition job_emits (io : Io) (w : World) : list Emit :=
  drop (length (emitted w)) (emitted (processTrending io w).2).

(** [n] calls of [likeVideo] for the same id, one after the other. *)
Definition like_n (id : string) (n : nat) (w : World) : World :=
  Nat.iter n (λ w', (likeVideo id w').2) w.

(** An owner with two followers, and an upload of hers. *)
Definition ann_world : World :=
  mkWorld []
          [mkUser "u1" "ann" "ann@example.org" "h1" (Some ["u2"; "u3"]) None
                  (Some 0) (Some 0)]
          ∅ 7 0 [] [] 0.

Definition ann_upload : UploadReq :=
  mkUploadReq "second clip" "u1" (Some (mkFile "f2")) reliable.

(** * Properties *)

(** ** Rooms *)

Section RoomsFacts.
Import Rooms.
Implicit Types (a : Adapter) (sid room uid : string).

Lemma membersOf_add a sid room room' :
  membersOf (add a sid room) room' =
  if decide (room = room') then {[sid]} ∪ membersOf a room
  else membersOf a room'.
Proof.
  unfold membersOf at 1. cbn. rewrite lookup_insert.
  by case_decide.
Qed.

Lemma roomsOf_add a sid room sid' :
  roomsOf (add a sid room) sid' =
  if decide (sid = sid') then {[room]} ∪ roomsOf a sid
  else roomsOf a sid'.
Proof.
  unfold roomsOf at 1. cbn. rewrite lookup_insert.
  by case_decide.
Qed.

Lemma connected_add a sid room sid' :
  connected (add a sid room) sid' ↔ sid = sid' ∨ connected a sid'.
Proof.
  unfold connected. cbn. rewrite lookup_insert.
  case_decide; naive_solver.
Qed.

Lemma wf_empty : wf empty.
Proof. intros sid room. unfold membersOf, roomsOf. cbn. set_solver. Qed.

Lemma wf_add a sid room : wf a → wf (add a sid room).
Proof.
  intros Hwf sid' room'. rewrite membersOf_add, roomsOf_add.
  specialize (Hwf sid' room').
  repeat case_decide; set_solver.
Qed.

Lemma lookup_del_room (rs : gmap string (gset string)) room sid room' :
  default ∅ (del_room rs room sid !! room') =
  if decide (room = room') then default ∅ (rs !! room) ∖ {[sid]}
  else default ∅ (rs !! room').
Proof.
  unfold del_room. destruct (rs !! room) as [m|] eqn:E.
  - cbn. destruct (decide (m ∖ {[sid]} = ∅)) as [He|He].
    + rewrite lookup_delete. case_decide; [by rewrite He | done].
    + rewrite lookup_insert. by case_decide.
  - case_decide as Hr; [|done]. subst. rewrite E. cbn. set_solver.
Qed.

Lemma lookup_leave_all (rs0 : gmap string (gset string)) sid
      (X : gset string) room :
  default ∅ (set_fold (λ r acc, del_room acc r sid) rs0 X !! room) =
  if decide (room ∈ X) then default ∅ (rs0 !! room) ∖ {[sid]}
  else default ∅ (rs0 !! room).
Proof.
  revert room.
  refine (set_fold_ind_L
            (λ acc (Y : gset string), ∀ room,
               default ∅ (acc !! room) =
               if decide (room ∈ Y) then default ∅ (rs0 !! room) ∖ {[sid]}
               else default ∅ (rs0 !! room)) _ _ _ _ X).
  - intros room. case_decide; [set_solver | done].
  - intros x Y acc Hx IH room. rewrite lookup_del_room.
    case_decide as Hxr.
    + subst. rewrite IH. repeat case_decide; set_solver.
    + rewrite IH. repeat case_decide; set_solver.
Qed.

Lemma membersOf_delAll a sid room :
  membersOf (delAll a sid) room =
  if decide (room ∈ roomsOf a sid) then membersOf a room ∖ {[sid]}
  else membersOf a room.
Proof.
  unfold delAll, roomsOf. destruct (sids a !! sid) as [rs|] eqn:E; cbn.
  - unfold membersOf at 1. cbn. apply lookup_leave_all.
  - case_decide; [set_solver | done].
Qed.

Lemma roomsOf_delAll a sid sid' :
  roomsOf (delAll a sid) sid' =
  if decide (sid = sid') then ∅ else roomsOf a sid'.
Proof.
  unfold delAll. destruct (sids a !! sid) as [rs|] eqn:E.
  - unfold roomsOf. cbn. rewrite lookup_delete. by case_decide.
  - case_decide; [|done]. subst. unfold roomsOf. by rewrite E.
Qed.

Lemma not_connected_delAll a sid : sids (delAll a sid) !! sid = None.
Proof.
  unfold delAll. destruct (sids a !! sid) as [rs|] eqn:E; [|done].
  cbn. by rewrite lookup_delete_eq.
Qed.

Lemma wf_delAll a sid : wf a → wf (delAll a sid).
Proof.
  intros Hwf sid' room. rewrite membersOf_delAll, roomsOf_delAll.
  pose proof (Hwf sid' room). pose proof (Hwf sid room).
  repeat case_decide; set_solver.
Qed.

Lemma wf_step a e : wf a → wf (step a e).
Proof.
  intros Hwf. destruct e; cbn.
  - by apply wf_add.
  - unfold onRegister. case_decide; [|done]. by do 2 apply wf_add.
  - by apply wf_delAll.
Qed.

Lemma wf_run es : ∀ a, wf a → wf (run a es).
Proof.
  induction es as [|e es IH]; intros a Hwf; [done|].
  apply IH. by apply wf_step.
Qed.

Lemma run_snoc a es e : run a (es ++ [e]) = step (run a es) e.
Proof. unfold run. by rewrite foldl_app. Qed.

Lemma delAll_gone a sid room : wf a → sid ∉ membersOf (delAll a sid) room.
Proof.
  intros Hwf. rewrite membersOf_delAll.
  pose proof (Hwf sid room). case_decide; set_solver.
Qed.

Lemma delAll_others a sid sid' room :
  sid' ≠ sid →
  sid' ∈ membersOf (delAll a sid) room ↔ sid' ∈ membersOf a room.
Proof.
  intros Hne. rewrite membersOf_delAll. case_decide; set_solver.
Qed.

(** C6. Once a socket has disconnected it is a member of no room, in
    particular not of the personal room it registered for, and its record
    is gone; this holds after any history, with or without a [register],
    and the other sockets keep their rooms. *)
Theorem disconnect_leaves_all_rooms (es : list Event) sid uid :
  let registered := run empty (es ++ [Register sid uid]) in
  let a := run empty (es ++ [Register sid uid; Disconnect sid]) in
  let b := run empty (es ++ [Disconnect sid]) in
  (sid ∉ membersOf a ("user_" +:+ uid)) ∧
  (∀ room, sid ∉ membersOf a room) ∧ ¬ connected a sid ∧
  (∀ room, sid ∉ membersOf b room) ∧ ¬ connected b sid ∧
  (∀ sid' room, sid' ≠ sid →
     (sid' ∈ membersOf a room ↔ sid' ∈ membersOf registered room)).
Proof.
  intros registered a b.
  assert (Ha : a = delAll registered sid).
  { unfold a, registered.
    change [Register sid uid; Disconnect sid]
      with ([Register sid uid] ++ [Disconnect sid]).
    by rewrite app_assoc, run_snoc. }
  assert (Hb : b = delAll (run empty es) sid) by apply run_snoc.
  assert (Hwf : wf registered) by apply wf_run, wf_empty.
  assert (Hwf' : wf (run empty es)) by apply wf_run, wf_empty.
  rewrite Ha, Hb. unfold connected.
  rewrite !not_connected_delAll.
  split_and!; try (intros [? ?]; done).
  - by apply delAll_gone.
  - intros room. by apply delAll_gone.
  - intros room. by apply delAll_gone.
  - intros sid' room Hne. by apply delAll_others.
Qed.

Lemma onRegister_connected a sid uid :
  connected a sid →
  onRegister a sid uid = add (add a sid ("user_" +:+ uid)) sid "trending".
Proof. intros Hc. unfold onRegister. by case_decide. Qed.

Lemma onRegister_keeps a sid uid sid' room :
  sid' ∈ membersOf a room → sid' ∈ membersOf (onRegister a sid uid) room.
Proof.
  intros Hin. unfold onRegister. case_decide; [|done].
  rewrite !membersOf_add. repeat case_decide; subst; set_solver.
Qed.

(** C2, as the code has it. A [register] only joins: after two of them
    with user ids [u1] and [u2] a connected socket is in both personal
    rooms and in the trending room, next to the rooms it already had. *)
Theorem register_twice_joins_both (es : list Event) sid u1 u2 :
  let a := run empty es in
  let a' := run a [Register sid u1; Register sid u2] in
  connected a sid →
  sid ∈ membersOf a' ("user_" +:+ u1) ∧
  sid ∈ membersOf a' ("user_" +:+ u2) ∧
  sid ∈ membersOf a' "trending" ∧
  roomsOf a' sid =
    {[ "user_" +:+ u1; "user_" +:+ u2; "trending" ]} ∪ roomsOf a sid ∧
  (∀ sid' room, sid' ∈ membersOf a room → sid' ∈ membersOf a' room).
Proof.
  intros a a' Hc. unfold a'. cbn.
  assert (Hc1 : connected (onRegister a sid u1) sid).
  { rewrite onRegister_connected by done. rewrite !connected_add. auto. }
  split_and!.
  - apply onRegister_keeps. rewrite onRegister_connected by done.
    rewrite !membersOf_add. repeat case_decide; set_solver.
  - rewrite (onRegister_connected _ _ u2) by done.
    rewrite !membersOf_add. repeat case_decide; set_solver.
  - rewrite (onRegister_connected _ _ u2) by done.
    rewrite !membersOf_add. repeat case_decide; set_solver.
  - rewrite (onRegister_connected _ _ u2) by done.
    rewrite (onRegister_connected _ _ u1) by done.
    rewrite !roomsOf_add. repeat case_decide; try done. set_solver.
  - intros sid' room Hin. by do 2 apply onRegister_keeps.
Qed.

Lemma register_twice_joins_both_witness :
  connected (run empty [Connect "s1"]) "s1" ∧
  "s1" ∈ membersOf (run empty [Connect "s1"; Register "s1" "u1";
                               Register "s1" "u2"]) "user_u1".
Proof.
  assert (Hc : connected (run empty [Connect "s1"]) "s1").
  { unfold connected. vm_compute. eauto. }
  split; [exact Hc|].
  exact (proj1 (register_twice_joins_both [Connect "s1"] "s1" "u1" "u2" Hc)).
Defined.

(** C2, as the spec has it, fails: after [register "a"] and
    [register "b"] the socket sits in two personal rooms. *)
Lemma register_twice_two_personal_rooms :
  ¬ one_personal_room
      (run empty [Connect "s"; Register "s" "a"; Register "s" "b"]) "s".
Proof.
  intros Hone.
  specialize (Hone "user_a" "user_b").
  assert (Heq : "user_a" = "user_b"); [|discriminate Heq].
  apply Hone.
  - by exists "a".
  - by exists "b".
  - vm_compute. set_solver.
  - vm_compute. set_solver.
Qed.

End RoomsFacts.

(** ** The monad on concrete worlds *)

Ltac monad_unfold :=
  unfold mbind, M_bind, bind, mret, M_ret, ret, try_catch, throw, gets,
    modify in *.

Lemma set_emitted_id w : set_emitted (emitted w) w = w.
Proof. by destruct w. Qed.

Lemma forEach_emit_packet {A} (io : Io) (mk : A → Emit) (xs : list A) :
  ∀ w,
    forEach xs (λ x, emit_packet io (mk x)) w =
    (match first_fault io (mk <$> xs) with
     | None => Return tt
     | Some err => Throw err
     end,
     set_emitted (emitted w ++ delivered io (mk <$> xs)) w).
Proof.
  induction xs as [|x xs IH]; intros w; cbn.
  - monad_unfold. by rewrite app_nil_r, set_emitted_id.
  - monad_unfold. unfold emit_packet at 1.
    destruct (io_fault io (mk x)) as [err|] eqn:E; monad_unfold.
    + by rewrite app_nil_r, set_emitted_id.
    + rewrite IH. destruct w; cbn. by rewrite <- app_assoc.
Qed.

Lemma delivered_all io es :
  (∀ e, io_fault io e = None) →
  delivered io es = es ∧ first_fault io es = None.
Proof.
  intros Hok. induction es as [|e es [IH1 IH2]]; [done|].
  cbn. rewrite Hok. by rewrite IH1, IH2.
Qed.

(** [delivered] is the longest prefix without a throw, and [first_fault]
    is the throw of the packet right after it. *)
Lemma delivered_prefix io es :
  ∃ rest,
    es = delivered io es ++ rest ∧
    Forall (λ e, io_fault io e = None) (delivered io es) ∧
    match first_fault io es with
    | None => rest = []
    | Some err => ∃ e rest', rest = e :: rest' ∧ io_fault io e = Some err
    end.
Proof.
  induction es as [|e es (rest & Heq & Hall & Hff)]; cbn.
  - by exists [].
  - destruct (io_fault io e) as [err|] eqn:E.
    + exists (e :: es). split_and!; [done | constructor | eauto].
    + exists rest. split_and!; [cbn; congruence | by constructor | done].
Qed.

(** ** The trending job *)

(** ** The trending job *)

Lemma trending_begin_run w :
  trending_begin w = (Return (threshold_of (env w)), after_send w).
Proof.
  unfold trending_begin, after_send, send_find_gte. monad_unfold. cbn.
  by destruct (threshold_of (env w)).
Qed.

Lemma trending_resume_run io threshold w :
  try_catch (trending_resume io threshold) trending_error w =
  (Return tt,
   match threshold with
   | NaN => set_console (console w ++ [job_error_line cast_error]) w
   | Num t =>
       let ps := trending_packet <$> find_gte_sorted t 10 (videos w) in
       let w1 := set_emitted (emitted w ++ delivered io ps) w in
       match first_fault io ps with
       | None => w1
       | Some err => set_console (console w ++ [job_error_line err]) w1
       end
   end).
Proof.
  unfold trending_resume, find_result. destruct threshold as [|t].
  - done.
  - monad_unfold.
    change (λ v, emit io "trending" "feed-update-trending" v)
      with (λ v, emit_packet io (trending_packet v)).
    rewrite forEach_emit_packet. cbn zeta.
    destruct (first_fault io _); [|done].
    by destruct w.
Qed.

Lemma processTrending_split io w :
  processTrending io w =
  try_catch (trending_resume io (threshold_of (env w))) trending_error
            (after_send w).
Proof.
  unfold processTrending, try_catch at 1, mbind, M_bind, bind.
  by rewrite trending_begin_run.
Qed.

Lemma processTrending_run io w :
  processTrending io w = (Return tt, after_job io w).
Proof.
  rewrite processTrending_split, trending_resume_run.
  unfold after_job, after_send.
  by destruct (threshold_of (env w)), w.
Qed.

#[local] Instance likes_desc_trans : Transitive likes_desc.
Proof. intros a b c. unfold likes_desc. lia. Qed.

#[local] Instance likes_desc_total : Total likes_desc.
Proof. intros a b. unfold likes_desc. lia. Qed.

(** The top of the result: the matching videos, best first, cut at the
    limit, and nothing left out beats anything kept. *)
Lemma find_gte_sorted_spec t limit vs :
  let top := find_gte_sorted t limit vs in
  length top = Nat.min limit (length (filter (gte t) vs)) ∧
  StronglySorted likes_desc top ∧
  (∀ v, v ∈ top → v ∈ vs ∧ gte t v) ∧
  ∃ rest, top ++ rest ≡ₚ filter (gte t) vs ∧
          ∀ x y, x ∈ top → y ∈ rest → likes_desc x y.
Proof.
  intros top. unfold top, find_gte_sorted.
  set (sorted := merge_sort likes_desc (filter (gte t) vs)).
  assert (Hperm : sorted ≡ₚ filter (gte t) vs) by apply merge_sort_Permutation.
  assert (Hsorted : StronglySorted likes_desc sorted)
    by (apply StronglySorted_merge_sort; apply _).
  rewrite <- (take_drop limit sorted) in Hsorted.
  split_and!.
  - by rewrite length_take, Hperm.
  - by eapply StronglySorted_app_1_l.
  - intros v Hv. apply subseteq_take in Hv. rewrite Hperm in Hv.
    apply list_elem_of_filter in Hv. tauto.
  - exists (drop limit sorted). split.
    + by rewrite take_drop.
    + intros x y. by apply StronglySorted_app_1_elem_of.
Qed.

Lemma after_job_reliable io w t :
  (∀ e, io_fault io e = None) →
  threshold_of (env w) = Num t →
  after_job io w =
  set_emitted (emitted w ++ (trending_packet <$> find_gte_sorted t 10 (videos w)))
              (set_finds (S (finds w)) w).
Proof.
  intros Hok Ht. unfold after_job. rewrite Ht. cbn zeta.
  destruct (delivered_all io (trending_packet <$> find_gte_sorted t 10 (videos w)) Hok)
    as [-> ->].
  done.
Qed.

(** C1. With an [io] that does not throw and a numeric threshold [t], one
    run of the job ends normally and emits, to the room "trending" under
    the event name "feed-update-trending", exactly the videos with
    [likes >= t], best first, at most 10 of them, none left out having more
    likes than one emitted. For likes [80; 60; 40; 90] and threshold 50
    these are three emits, for 90, 80 and 60 in that order. *)
Theorem trending_job_publishes :
  (∀ io w t,
     (∀ e, io_fault io e = None) →
     threshold_of (env w) = Num t →
     let top := find_gte_sorted t 10 (videos w) in
     let w' := (processTrending io w).2 in
     (processTrending io w).1 = Return tt ∧
     emitted w' = emitted w ++ (trending_packet <$> top) ∧
     console w' = console w ∧
     length top = Nat.min 10 (length (filter (gte t) (videos w))) ∧
     StronglySorted likes_desc top ∧
     (∀ v, v ∈ top → v ∈ videos w ∧ gte t v) ∧
     ∃ rest, top ++ rest ≡ₚ filter (gte t) (videos w) ∧
             ∀ x y, x ∈ top → y ∈ rest → likes_desc x y) ∧
  (∀ io w v1 v2 v3 v4,
     (∀ e, io_fault io e = None) →
     threshold_of (env w) = Num 50 →
     videos w = [v1; v2; v3; v4] →
     likes v1 = Some 80 → likes v2 = Some 60 →
     likes v3 = Some 40 → likes v4 = Some 90 →
     emitted (processTrending io w).2 =
     emitted w ++ [trending_packet v4; trending_packet v1; trending_packet v2]).
Proof.
  split.
  - intros io w t Hok Ht top w'. unfold w'.
    rewrite processTrending_run. cbn [fst snd].
    rewrite (after_job_reliable io w t Hok Ht).
    destruct (find_gte_sorted_spec t 10 (videos w)) as (Hlen & Hs & Hin & Hrest).
    split_and!; try done; by destruct w.
  - intros io w v1 v2 v3 v4 Hok Ht Hvs H1 H2 H3 H4.
    rewrite processTrending_run. cbn [snd].
    rewrite (after_job_reliable io w 50 Hok Ht), Hvs.
    destruct v1, v2, v3, v4. cbn in H1, H2, H3, H4. subst.
    destruct w; cbn. f_equal.
Qed.

Lemma trending_job_publishes_witness :
  likes_key <$> (payload <$> emitted (processTrending reliable example_world).2)
  = [90; 80; 60].
Proof.
  rewrite (proj2 trending_job_publishes reliable example_world
             (clip "a" 80) (clip "b" 60) (clip "c" 40) (clip "d" 90)
             (λ _, eq_refl) eq_refl eq_refl eq_refl eq_refl eq_refl eq_refl).
  reflexivity.
Defined.

(** C7, as the code has it. The one [try] of the job encloses the whole
    loop: the run ends normally, the packets before the first throw are
    emitted, that throw is logged once, and the packets after it are not
    emitted. *)
Theorem trending_job_stops_at_first_throw io w t :
  threshold_of (env w) = Num t →
  let ps := trending_packet <$> find_gte_sorted t 10 (videos w) in
  let w' := (processTrending io w).2 in
  (processTrending io w).1 = Return tt ∧
  ∃ sent rest,
    ps = sent ++ rest ∧
    emitted w' = emitted w ++ sent ∧
    Forall (λ e, io_fault io e = None) sent ∧
    match rest with
    | [] => console w' = console w
    | e :: _ =>
        ∃ err, io_fault io e = Some err ∧
               console w' = console w ++ [job_error_line err]
    end.
Proof.
  intros Ht ps w'. unfold w'. rewrite processTrending_run. cbn [fst snd].
  split; [done|]. unfold after_job. rewrite Ht. cbn zeta. fold ps.
  destruct (delivered_prefix io ps) as (rest & Heq & Hall & Hff).
  exists (delivered io ps), rest. split_and!; try done.
  - destruct (first_fault io ps); by destruct w.
  - destruct (first_fault io ps) as [err|].
    + destruct Hff as (e & rest' & -> & He). exists err. by destruct w.
    + subst rest. by destruct w.
Qed.

Lemma trending_job_stops_at_first_throw_witness :
  (processTrending flaky example_world).1 = Return tt ∧
  payload <$> emitted (processTrending flaky example_world).2 = [clip "d" 90] ∧
  console (processTrending flaky example_world).2 =
    ["Trending job error RelayUnavailable"].
Proof.
  pose proof (trending_job_stops_at_first_throw flaky example_world 50 eq_refl)
    as [Hret _].
  split; [exact Hret|]. split; reflexivity.
Defined.

(** C7, as the spec has it, fails: with a throw for the video of 80 likes
    the video of 60 likes, whose own emit would not throw, is not sent. *)
Lemma throw_aborts_remaining_items :
  ¬ publish_independent flaky example_world.
Proof.
  intros Hind.
  specialize (Hind 50 (clip "b" 60) eq_refl).
  assert (Htop : find_gte_sorted 50 10 (videos example_world) =
                 [clip "d" 90; clip "a" 80; clip "b" 60]) by reflexivity.
  rewrite Htop in Hind.
  assert (Hsent : emitted (processTrending flaky example_world).2 =
                  [trending_packet (clip "d" 90)]) by reflexivity.
  rewrite Hsent in Hind.
  assert (Hin : trending_packet (clip "b" 60) ∈ [trending_packet (clip "d" 90)]).
  { apply Hind; [set_solver | reflexivity]. }
  apply list_elem_of_singleton in Hin. discriminate Hin.
Qed.

(** ** Configuration *)

Lemma job_emits_at_most_10 io w :
  ∃ new, emitted (processTrending io w).2 = emitted w ++ new ∧
         (length new ≤ 10)%nat.
Proof.
  rewrite processTrending_run. cbn [snd]. unfold after_job.
  destruct (threshold_of (env w)) as [|t].
  - exists []. split; [destruct w; cbn; by rewrite app_nil_r | cbn; lia].
  - cbn zeta.
    set (ps := trending_packet <$> find_gte_sorted t 10 (videos w)).
    destruct (delivered_prefix io ps) as (rest & Heq & _ & _).
    exists (delivered io ps). split.
    + destruct (first_fault io ps); by destruct w.
    + assert (Hlen : (length ps ≤ 10)%nat).
      { unfold ps. rewrite length_fmap.
        destruct (find_gte_sorted_spec t 10 (videos w)) as (-> & _). lia. }
      rewrite Heq, length_app in Hlen. lia.
Qed.

Lemma digit_char_facts d :
  (d ≤ 9)%nat →
  digit_of (digit_char d) = Some (Z.of_nat d) ∧
  is_space (digit_char d) = false ∧
  digit_char d ≠ "+"%char ∧ digit_char d ≠ "-"%char.
Proof.
  intros Hd. do 10 (destruct d as [|d]; [by vm_compute|]). lia.
Qed.

Lemma digits_numeral ds acc :
  Forall (λ d, d ≤ 9)%nat ds →
  digits acc (numeral ds) =
  Some (foldl (λ a d, 10 * a + Z.of_nat d)%Z acc ds).
Proof.
  intros Hds. revert acc. induction Hds as [|d ds Hd _ IH]; intros acc.
  - done.
  - cbn. destruct (digit_char_facts d Hd) as (-> & _). apply IH.
Qed.

Lemma ltrim_numeral ds :
  Forall (λ d, d ≤ 9)%nat ds → ltrim (numeral ds) = numeral ds.
Proof.
  intros [|d ds' Hd _]; [done|]. cbn.
  by destruct (digit_char_facts d Hd) as (_ & -> & _).
Qed.

Lemma rev_app_numeral ds acc :
  String.rev_app (numeral ds) (numeral acc) = numeral (rev_append ds acc).
Proof.
  revert acc. induction ds as [|d ds IH]; intros acc; [done|].
  cbn. apply (IH (d :: acc)).
Qed.

Lemma rev_numeral ds : String.rev (numeral ds) = numeral (rev ds).
Proof.
  rewrite rev_alt. exact (rev_app_numeral ds []).
Qed.

Lemma trim_numeral ds :
  Forall (λ d, d ≤ 9)%nat ds → trim (numeral ds) = numeral ds.
Proof.
  intros Hds. unfold trim.
  rewrite (ltrim_numeral ds Hds), rev_numeral.
  rewrite ltrim_numeral by (by apply Forall_rev).
  by rewrite rev_numeral, rev_involutive.
Qed.

Lemma Number_of_numeral ds :
  ds ≠ [] → Forall (λ d, d ≤ 9)%nat ds →
  (numeral_value ds ≤ 2 ^ 53)%Z →
  Number_of_string (numeral ds) = Num (numeral_value ds).
Proof.
  intros Hne Hds Hle. unfold Number_of_string.
  rewrite (trim_numeral ds Hds).
  assert (Hparse : unsigned (numeral ds) = Some (numeral_value ds)).
  { destruct ds as [|d ds']; [done|]. apply (digits_numeral (d :: ds') 0 Hds). }
  assert (Hpos : (0 ≤ numeral_value ds)%Z).
  { unfold numeral_value. clear.
    assert (Hgen : ∀ acc, (0 ≤ acc)%Z →
              (0 ≤ foldl (λ a d, 10 * a + Z.of_nat d) acc ds)%Z).
    { induction ds as [|d ds IH]; intros acc Hacc; [done|].
      cbn. apply IH. lia. }
    by apply Hgen. }
  assert (Hround : round_double (numeral_value ds) = numeral_value ds).
  { unfold round_double. rewrite decide_True; [done | lia]. }
  destruct ds as [|d ds']; [done|].
  inversion Hds as [|? ? Hd _]; subst.
  destruct (digit_char_facts d Hd) as (_ & _ & Hplus & Hminus).
  change (numeral (d :: ds')) with (String (digit_char d) (numeral ds')) in *.
  destruct (digit_char d) as [[] [] [] [] [] [] [] []];
    try done; rewrite Hparse; cbn [from_option]; by rewrite Hround.
Qed.

Lemma job_fires_even e m :
  job_fires e m = bool_decide (minute m `mod` 2 = 0)%nat.
Proof.
  unfold job_fires, cron_fires. cbn.
  by rewrite !andb_true_r.
Qed.




(** ** The cron trigger *)

Lemma cron_tick_run io s :
  Cron.step io s Cron.Tick =
  Cron.mkState
    (after_send
       (set_console (console (Cron.world s) ++ ["Running trending job..."])
          (Cron.world s)))
    (Cron.inflight s ++ [threshold_of (env (Cron.world s))]).
Proof.
  destruct s as [w ts]. cbn.
  unfold mbind, M_bind, bind, console_log, modify.
  by rewrite trending_begin_run.
Qed.

Lemma after_send_numeric w t :
  threshold_of (env w) = Num t → after_send w = set_finds (S (finds w)) w.
Proof. intros Ht. unfold after_send. by rewrite Ht. Qed.

Lemma cron_answer_finds io s :
  finds (Cron.world (Cron.step io s Cron.Answer)) = finds (Cron.world s).
Proof.
  destruct s as [w [|t ts]]; [done|]. cbn.
  rewrite trending_resume_run. cbn [snd].
  destruct t; [by destruct w|]. cbn zeta.
  destruct (first_fault io _); by destruct w.
Qed.

Lemma cron_step_env io s sig :
  env (Cron.world (Cron.step io s sig)) = env (Cron.world s).
Proof.
  destruct sig.
  - rewrite cron_tick_run. cbn. unfold after_send. cbn.
    destruct (threshold_of _); by destruct (Cron.world s).
  - destruct s as [w [|t ts]]; [done|]. cbn.
    rewrite trending_resume_run. cbn [snd].
    destruct t; [by destruct w|]. cbn zeta.
    destruct (first_fault io _); by destruct w.
Qed.

(** The callback run to completion is a tick answered at once. *)
Lemma cron_callback_tick_answer io w :
  (cron_callback io w).2 =
  Cron.world (Cron.run io (Cron.mkState w []) [Cron.Tick; Cron.Answer]).
Proof.
  change (Cron.run io (Cron.mkState w []) [Cron.Tick; Cron.Answer])
    with (Cron.step io (Cron.step io (Cron.mkState w []) Cron.Tick)
                    Cron.Answer).
  rewrite cron_tick_run.
  unfold cron_callback, mbind, M_bind, bind, console_log, modify.
  rewrite processTrending_split. reflexivity.
Qed.

(** C3, as the code has it. The schedule has no guard. With a threshold
    that is a number, as it is by default, every tick sends one query
    and adds one run in flight, whether or not earlier runs are still
    waiting, and an answer sends none; after any signals the number of
    queries sent has grown by the number of ticks. *)
Theorem every_tick_queries io s sigs t :
  threshold_of (env (Cron.world s)) = Num t →
  finds (Cron.world (Cron.step io s Cron.Tick)) = S (finds (Cron.world s)) ∧
  length (Cron.inflight (Cron.step io s Cron.Tick)) =
    S (length (Cron.inflight s)) ∧
  finds (Cron.world (Cron.run io s sigs)) =
    (finds (Cron.world s) + Cron.ticks sigs)%nat.
Proof.
  intros Ht.
  assert (Htick : ∀ s', threshold_of (env (Cron.world s')) = Num t →
            finds (Cron.world (Cron.step io s' Cron.Tick)) =
            S (finds (Cron.world s'))).
  { intros s' Hs'. rewrite cron_tick_run. cbn [Cron.world].
    rewrite (after_send_numeric _ t) by (by destruct (Cron.world s')).
    by destruct (Cron.world s'). }
  split_and!.
  - by apply Htick.
  - rewrite cron_tick_run. cbn. rewrite length_app. cbn. lia.
  - revert s Ht. induction sigs as [|sig sigs IH]; intros s Ht.
    + cbn. unfold Cron.ticks. cbn. lia.
    + change (Cron.run io s (sig :: sigs))
        with (Cron.run io (Cron.step io s sig) sigs).
      rewrite IH by (by rewrite cron_step_env).
      unfold Cron.ticks. rewrite filter_cons.
      destruct sig.
      * rewrite Htick by done. rewrite decide_True by done. cbn. lia.
      * rewrite cron_answer_finds. rewrite decide_False by done. lia.
Qed.

Lemma every_tick_queries_witness :
  finds (Cron.world
           (Cron.run reliable (Cron.mkState example_world [])
                     [Cron.Tick; Cron.Tick; Cron.Answer; Cron.Tick])) = 3%nat.
Proof.
  apply (every_tick_queries reliable (Cron.mkState example_world [])
           [Cron.Tick; Cron.Tick; Cron.Answer; Cron.Tick] 50).
  reflexivity.
Defined.

(** C3, as the spec has it, fails: a tick that arrives while the run of
    an earlier tick still waits for its answer is not skipped. *)
Lemma overlapping_tick_is_not_skipped :
  ¬ Cron.skips_overlap reliable
      (Cron.run reliable (Cron.mkState example_world []) [Cron.Tick]).
Proof.
  intros Hskip.
  destruct Hskip as [Hfinds _]; [discriminate|].
  vm_compute in Hfinds. discriminate Hfinds.
Qed.

(** ** Uploads *)

Lemma uploadVideo_saved req file w :
  up_file req = Some file →
  uploadVideo req w =
  let video := uploaded req file w in
  let w2 := set_videos (videos w ++ [video])
              (set_oid_counter (oid_counter w + 1)%N w) in
  match findById (up_userId req) (users w) with
  | None => (Return (mkResponse 500 (JError (message null_followers))), w2)
  | Some u =>
      let ps := following_packet video <$> or_empty (followers u) in
      (Return (match first_fault (up_io req) ps with
               | None => json (JVideo video)
               | Some err => mkResponse 500 (JError (message err))
               end),
       set_emitted (emitted w ++ delivered (up_io req) ps) w2)
  end.
Proof.
  intros Hfile. unfold uploadVideo, new_Video, save_new. rewrite Hfile.
  monad_unfold. cbn.
  destruct (findById (up_userId req) (users w)) as [u|] eqn:Hu; [|done].
  change (λ f, emit (up_io req) ("user_" +:+ f) "feed-update-following" ?v)
    with (λ f, emit_packet (up_io req) (following_packet v f)).
  rewrite forEach_emit_packet. cbn.
  by destruct (first_fault (up_io req) _).
Qed.

(** C5. For an upload whose owner is found with followers [fs] and an
    [io] that does not throw, the handler emits exactly one packet per
    follower, in order, each to the room "user_" followed by the follower's
    id and each carrying the same saved video, which is also the answer;
    with no follower nothing is emitted. *)
Theorem upload_notifies_each_follower req file w u :
  up_file req = Some file →
  findById (up_userId req) (users w) = Some u →
  (∀ e, io_fault (up_io req) e = None) →
  let video := uploaded req file w in
  let fs := or_empty (followers u) in
  let w' := (uploadVideo req w).2 in
  (uploadVideo req w).1 = Return (json (JVideo video)) ∧
  emitted w' = emitted w ++ (following_packet video <$> fs) ∧
  length (following_packet video <$> fs) = length fs ∧
  (∀ i f, fs !! i = Some f →
     (following_packet video <$> fs) !! i =
       Some (mkEmit ("user_" +:+ f) "feed-update-following" video)) ∧
  (fs = [] → emitted w' = emitted w) ∧
  videos w' = videos w ++ [video].
Proof.
  intros Hfile Hu Hok video fs w'. unfold w'.
  rewrite (uploadVideo_saved req file w Hfile). cbn zeta. rewrite Hu.
  fold video fs.
  destruct (delivered_all (up_io req) (following_packet video <$> fs) Hok)
    as [-> ->].
  cbn [fst snd]. split_and!.
  - done.
  - by destruct w.
  - by rewrite length_fmap.
  - intros i f Hi. by rewrite list_lookup_fmap, Hi.
  - intros ->. destruct w; cbn. by rewrite app_nil_r.
  - by destruct w.
Qed.

Lemma upload_notifies_each_follower_witness :
  payload <$> emitted
    (uploadVideo (mkUploadReq "t" "u1" (Some (mkFile "f1")) reliable)
       (mkWorld [] [mkUser "u1" "ann" "a@x" "h" (Some ["u2"; "u3"]) None None None]
                ∅ 7 0 [] [] 0)).2
  = [mkVideo "oid0" "t" "/uploads/f1" "u1" (Some 0) [] (Some 7) (Some 7);
     mkVideo "oid0" "t" "/uploads/f1" "u1" (Some 0) [] (Some 7) (Some 7)].
Proof.
  pose proof (upload_notifies_each_follower
                (mkUploadReq "t" "u1" (Some (mkFile "f1")) reliable)
                (mkFile "f1")
                (mkWorld [] [mkUser "u1" "ann" "a@x" "h" (Some ["u2"; "u3"])
                                    None None None] ∅ 7 0 [] [] 0)
                _ eq_refl eq_refl (λ _, eq_refl)) as (_ & Hemitted & _).
  rewrite Hemitted. reflexivity.
Defined.




(** ** Collections *)

Section CollectionFacts.
Context {D : Type} `{Document D}.
Implicit Types (ds : list D) (f g : D → D) (id : string).

Lemma findById_Some id ds d : findById id ds = Some d → doc_id d = id ∧ d ∈ ds.
Proof.
  induction ds as [|d' ds IH]; [done|]. cbn. case_decide.
  - intros [= ->]. split; [done | by left].
  - intros Hd. destruct (IH Hd). split; [done | by right].
Qed.

Lemma findById_updateById_eq id f ds d :
  findById id ds = Some d → doc_id (f d) = id →
  findById id (updateById id f ds) = Some (f d).
Proof.
  intros Hd Hf. induction ds as [|d' ds IH]; [done|]. cbn in *.
  case_decide; simplify_eq; cbn.
  - by rewrite decide_True.
  - rewrite decide_False by done. auto.
Qed.

Lemma findById_updateById_ne id id' f ds :
  id' ≠ id → (∀ d, doc_id d = id → doc_id (f d) = id) →
  findById id' (updateById id f ds) = findById id' ds.
Proof.
  intros Hne Hf. induction ds as [|d ds IH]; [done|]. cbn.
  destruct (decide (doc_id d = id)) as [Hd|Hd]; cbn.
  - rewrite (Hf d Hd). rewrite Hd. by rewrite !decide_False by done.
  - by rewrite IH.
Qed.

Lemma length_updateById id f ds : length (updateById id f ds) = length ds.
Proof.
  induction ds as [|d ds IH]; [done|]. cbn. case_decide; cbn; congruence.
Qed.

Lemma updateById_fuse id f g ds :
  (∀ d, doc_id d = id → doc_id (f d) = id) →
  updateById id g (updateById id f ds) = updateById id (g ∘ f) ds.
Proof.
  intros Hf. induction ds as [|d ds IH]; [done|]. cbn.
  destruct (decide (doc_id d = id)) as [Hd|Hd]; cbn.
  - by rewrite decide_True by auto.
  - rewrite decide_False by done. by rewrite IH.
Qed.

Lemma updateById_comm id1 id2 f g ds :
  id1 ≠ id2 →
  (∀ d, doc_id (f d) = doc_id d) → (∀ d, doc_id (g d) = doc_id d) →
  updateById id1 f (updateById id2 g ds) =
  updateById id2 g (updateById id1 f ds).
Proof.
  intros Hne Hf Hg. induction ds as [|d ds IH]; [done|]. cbn.
  destruct (decide (doc_id d = id2)) as [H2|H2],
           (decide (doc_id d = id1)) as [H1|H1];
    cbn; rewrite ?Hf, ?Hg; repeat case_decide; congruence.
Qed.
End CollectionFacts.

(** ** Likes *)

Lemma js_add1_countable n : countable n → js_add1 n = (n + 1)%Z.
Proof.
  unfold countable, js_add1, round_double. intros Hn.
  rewrite decide_True; lia.
Qed.

Lemma or_zero_default x : or_zero x = default 0 x.
Proof. destruct x as [n|]; cbn; [|done]. case_decide; lia. Qed.

Lemma set_likes_same n v : likes v = Some n → set_likes n v = v.
Proof. destruct v. cbn. by intros ->. Qed.

Lemma likeVideo_found id w v :
  findById id (videos w) = Some v →
  likeVideo id w =
  if decide (likes v = Some (js_add1 (or_zero (likes v))))
  then (Return (json (JVideo v)), w)
  else (Return (json (JVideo (liked (clock w) v))),
        set_videos (updateById id (λ _, liked (clock w) v) (videos w)) w).
Proof.
  intros Hv. destruct (findById_Some _ _ _ Hv) as [Hid _].
  change (v_id v = id) in Hid.
  unfold likeVideo, save_changes, save_existing. monad_unfold. cbn.
  rewrite Hv. cbn. case_decide as Hsame.
  - by rewrite (set_likes_same _ _ Hsame).
  - by rewrite Hid.
Qed.

Lemma likeVideo_missing id w :
  findById id (videos w) = None →
  likeVideo id w = (Return (mkResponse 400 (JError (message null_likes))), w).
Proof.
  intros Hv. unfold likeVideo. monad_unfold. cbn. by rewrite Hv.
Qed.

Lemma likeVideo_countable id w v :
  findById id (videos w) = Some v → countable (default 0 (likes v)) →
  likeVideo id w =
  (Return (json (JVideo (liked (clock w) v))),
   set_videos (updateById id (λ _, liked (clock w) v) (videos w)) w).
Proof.
  intros Hv Hn. rewrite (likeVideo_found id w v Hv).
  rewrite decide_False; [done|].
  rewrite or_zero_default, js_add1_countable by done.
  destruct (likes v) as [k|]; cbn; [|done]. intros [= Hk]. lia.
Qed.

(** C9, within the range of a double. For a video that exists and whose
    count is an integer from -2^53 up to, but not including, 2^53,
    [likeVideo] answers with the video whose [likes] is the old count
    plus one, a missing count being 0; title, url, user, comments, id and
    creation time are the old ones; that video is what the store then
    holds under the id, and every other video, the users, the emits and
    the console are as before. *)
Theorem like_increments_by_one id w v :
  findById id (videos w) = Some v →
  countable (default 0 (likes v)) →
  let v' := liked (clock w) v in
  let w' := (likeVideo id w).2 in
  (likeVideo id w).1 = Return (json (JVideo v')) ∧
  likes v' = Some (default 0 (likes v) + 1) ∧
  title v' = title v ∧ url v' = url v ∧ user v' = user v ∧
  comments v' = comments v ∧ v_id v' = v_id v ∧
  v_createdAt v' = v_createdAt v ∧
  findById id (videos w') = Some v' ∧
  (∀ id', id' ≠ id → findById id' (videos w') = findById id' (videos w)) ∧
  length (videos w') = length (videos w) ∧
  users w' = users w ∧ emitted w' = emitted w ∧ console w' = console w.
Proof.
  intros Hv Hn v' w'.
  destruct (findById_Some _ _ _ Hv) as [Hid _]. change (v_id v = id) in Hid.
  unfold w'. rewrite (likeVideo_countable id w v Hv Hn). cbn [fst snd].
  split_and!; try done; try (by destruct w).
  - cbn. by rewrite or_zero_default, js_add1_countable.
  - unfold set_videos. cbn [videos].
    by apply (findById_updateById_eq id (λ _, liked (clock w) v) _ v Hv).
  - intros id' Hne. unfold set_videos. cbn [videos].
    by apply findById_updateById_ne.
  - unfold set_videos. cbn [videos]. apply length_updateById.
Qed.

Lemma like_increments_by_one_witness :
  likes <$> findById "b" (videos (likeVideo "b" example_world).2) = Some (Some 61).
Proof.
  assert (Hn : countable (default 0 (likes (clip "b" 60))))
    by (unfold countable; cbn; lia).
  destruct (like_increments_by_one "b" example_world (clip "b" 60) eq_refl Hn)
    as (_ & _ & _ & _ & _ & _ & _ & _ & Hfound & _).
  rewrite Hfound. reflexivity.
Defined.

(** C9, as the spec has it, fails: a count of 2^53 is a double whose
    successor is not a double, the sum rounds back to 2^53, and the like
    leaves the count where it was. *)
Lemma like_stalls_at_2_53 : ¬ like_adds_one "a" saturated_world.
Proof.
  intros Hclaim.
  destruct (Hclaim (clip "a" (2 ^ 53)) eq_refl) as (v' & Hv' & Hl).
  vm_compute in Hv'. injection Hv' as <-.
  vm_compute in Hl. discriminate Hl.
Qed.

(** ** Follows *)

Lemma addToSet_elem x xs : x ∈ or_empty (addToSet x xs).
Proof. unfold addToSet. cbn. case_decide; set_solver. Qed.

Lemma addToSet_NoDup x xs :
  NoDup (or_empty xs) → NoDup (or_empty (addToSet x xs)).
Proof.
  intros Hnd. unfold addToSet. cbn. case_decide; [done|].
  apply NoDup_app. split_and!; [done | set_solver | apply NoDup_singleton].
Qed.

Lemma addToSet_idem x xs : addToSet x (addToSet x xs) = addToSet x xs.
Proof.
  unfold addToSet at 1. f_equal. rewrite decide_True; [done|].
  apply addToSet_elem.
Qed.

Lemma updateById_view id (f f' : User → User) :
  (∀ u u', follow_view u = follow_view u' →
           follow_view (f u) = follow_view (f' u')) →
  ∀ us us', follow_view <$> us = follow_view <$> us' →
    follow_view <$> updateById id f us = follow_view <$> updateById id f' us'.
Proof.
  intros Hf. induction us as [|u us IH]; intros [|u' us'] Heq; try done.
  cbn in Heq. injection Heq as Hid Hfs Hfg Hus. cbn.
  assert (Hu : follow_view u = follow_view u')
    by (unfold follow_view; congruence).
  unfold doc_id, User_Document. rewrite Hid.
  case_decide; cbn; f_equal; auto.
Qed.

Lemma follow_run req w :
  userId req ≠ targetId req →
  follow req w =
  (Return (json JOk),
   set_users
     (updateById (userId req)
        (λ u, touch_user (clock w) (addToSet_following (targetId req) u))
        (updateById (targetId req)
           (λ u, touch_user (clock w) (addToSet_followers (userId req) u))
           (users w))) w).
Proof.
  intros Hne. unfold follow, findByIdAndUpdate. rewrite decide_False by done.
  monad_unfold. by destruct w.
Qed.



(** * Further properties *)

(** ** Rooms, registration and delivery *)

Section RoomsMore.
Import Rooms.
Implicit Types (a : Adapter) (sid room uid : string).

Lemma adapter_eq a b :
  (∀ room, rooms a !! room = rooms b !! room) →
  (∀ sid, sids a !! sid = sids b !! sid) → a = b.
Proof.
  destruct a as [ra sa], b as [rb sb]. cbn. intros Hr Hs.
  f_equal; by apply map_eq.
Qed.

Lemma rooms_add_lookup a sid room room' :
  rooms (add a sid room) !! room' =
  if decide (room = room') then Some ({[sid]} ∪ membersOf a room)
  else rooms a !! room'.
Proof. cbn. apply lookup_insert. Qed.

Lemma sids_add_lookup a sid room sid' :
  sids (add a sid room) !! sid' =
  if decide (sid = sid') then Some ({[room]} ∪ roomsOf a sid)
  else sids a !! sid'.
Proof. cbn. apply lookup_insert. Qed.

(** X1. A second [register] with the same user id changes nothing. *)
Theorem register_same_user_again a sid uid :
  onRegister (onRegister a sid uid) sid uid = onRegister a sid uid.
Proof.
  destruct (decide (connected a sid)) as [Hc|Hc].
  - assert (Hc' : connected (onRegister a sid uid) sid).
    { rewrite onRegister_connected by done. rewrite !connected_add. auto. }
    rewrite (onRegister_connected (onRegister a sid uid)) by done.
    rewrite (onRegister_connected a) by done.
    apply adapter_eq.
    + intros room. rewrite !rooms_add_lookup, !membersOf_add.
      repeat case_decide; simplify_eq; try done; f_equal;
        apply set_eq; intros x; rewrite !elem_of_union; tauto.
    + intros sid'. rewrite !sids_add_lookup, !roomsOf_add.
      repeat case_decide; simplify_eq; try done; f_equal;
        apply set_eq; intros x; rewrite !elem_of_union; tauto.
  - assert (Hsame : onRegister a sid uid = a)
      by (unfold onRegister; by case_decide).
    by rewrite !Hsame.
Qed.
Lemma roomsOf_onRegister_other a sid uid sid' :
  sid ≠ sid' → roomsOf (onRegister a sid uid) sid' = roomsOf a sid'.
Proof.
  intros Hne. unfold onRegister. case_decide; [|done].
  rewrite !roomsOf_add. by rewrite !decide_False.
Qed.

(** X2. A socket that connected but never sent [register] is in no room
    but the one named by its own id; in particular it is not in the
    trending room and not in a personal room. *)
Theorem unregistered_socket_only_own_room (es : list Event) sid :
  Forall (λ e, ∀ uid, e ≠ Register sid uid) es →
  roomsOf (run empty es) sid ⊆ {[sid]} ∧
  (∀ room, room ≠ sid → sid ∉ membersOf (run empty es) room).
Proof.
  intros Hes.
  assert (Hrooms : roomsOf (run empty es) sid ⊆ {[sid]}).
  { induction es as [|e es IH] using rev_ind.
    - unfold roomsOf. cbn. set_solver.
    - apply Forall_app in Hes as [Hes He].
      rewrite Forall_singleton in He.
      specialize (IH Hes). rewrite run_snoc.
      destruct e as [s|s u|s]; cbn.
      + unfold onConnection. rewrite roomsOf_add.
        case_decide; [subst; set_solver | done].
      + destruct (decide (s = sid)) as [->|Hne]; [by destruct (He u)|].
        by rewrite roomsOf_onRegister_other.
      + unfold onDisconnect. rewrite roomsOf_delAll.
        case_decide; [set_solver | done]. }
  split; [done|].
  intros room Hne Hin.
  apply (wf_run es empty wf_empty) in Hin. set_solver.
Qed.

Lemma unregistered_socket_only_own_room_witness :
  "s1" ∉ membersOf (run empty [Connect "s1"; Connect "s2"; Register "s2" "u2"])
                   "trending".
Proof.
  apply (unregistered_socket_only_own_room
           [Connect "s1"; Connect "s2"; Register "s2" "u2"] "s1");
    [|discriminate].
  repeat constructor; intros uid; discriminate.
Defined.

(** X3. A whole session of a new socket, connect, register, disconnect,
    leaves the members of every room and the rooms of every socket as
    they were before it. *)
Theorem session_leaves_no_trace (es : list Event) sid uid :
  let a := run empty es in
  let a' := run a [Connect sid; Register sid uid; Disconnect sid] in
  ¬ connected a sid →
  (∀ room, membersOf a' room = membersOf a room) ∧
  (∀ sid', roomsOf a' sid' = roomsOf a sid') ∧
  ¬ connected a' sid.
Proof.
  intros a a' Hnc. unfold a'. cbn. unfold onDisconnect, onConnection.
  assert (Hwf : wf a) by apply wf_run, wf_empty.
  assert (Hnone : roomsOf a sid = ∅).
  { unfold roomsOf. destruct (sids a !! sid) eqn:E; [|done].
    destruct Hnc. by eexists. }
  assert (Hout : ∀ room, sid ∉ membersOf a room).
  { intros room Hin. apply Hwf in Hin. set_solver. }
  assert (Hc : connected (add a sid sid) sid)
    by (apply connected_add; auto).
  rewrite (onRegister_connected _ _ _ Hc).
  split_and!.
  - intros room. rewrite membersOf_delAll, !roomsOf_add, !membersOf_add.
    rewrite Hnone. specialize (Hout room).
    repeat case_decide; simplify_eq; set_solver.
  - intros sid'. rewrite roomsOf_delAll, !roomsOf_add.
    repeat case_decide; simplify_eq; try done.
  - unfold connected. rewrite not_connected_delAll. by intros [? ?].
Qed.

Lemma session_leaves_no_trace_witness :
  membersOf (run (run empty [Connect "s2"; Register "s2" "u2"])
                 [Connect "s1"; Register "s1" "u1"; Disconnect "s1"])
            "trending" =
  membersOf (run empty [Connect "s2"; Register "s2" "u2"]) "trending".
Proof.
  apply (session_leaves_no_trace [Connect "s2"; Register "s2" "u2"] "s1" "u1").
  unfold connected. vm_compute. by intros [? ?].
Defined.

End RoomsMore.

Lemma delivered_subset io es e : e ∈ delivered io es → e ∈ es.
Proof.
  induction es as [|e' es IH]; cbn; [done|].
  destruct (io_fault io e'); [by intros ?%elem_of_nil|].
  rewrite !elem_of_cons. naive_solver.
Qed.

Lemma job_emits_eq io w :
  job_emits io w =
  match threshold_of (env w) with
  | NaN => []
  | Num t => delivered io (trending_packet <$> find_gte_sorted t 10 (videos w))
  end.
Proof.
  unfold job_emits. rewrite processTrending_run. cbn [snd]. unfold after_job.
  destruct (threshold_of (env w)) as [|t].
  - destruct w; cbn. by rewrite drop_all.
  - cbn zeta. destruct (first_fault io _); destruct w; cbn;
      by rewrite drop_app_length.
Qed.

(** The packets one call of [uploadVideo] adds to the emits, on every
    path of the handler. *)
Lemma upload_emits req w :
  drop (length (emitted w)) (emitted (uploadVideo req w).2) =
  match up_file req, findById (up_userId req) (users w) with
  | Some file, Some u =>
      delivered (up_io req)
                (following_packet (uploaded req file w) <$> or_empty (followers u))
  | _, _ => []
  end.
Proof.
  destruct (up_file req) as [file|] eqn:Hfile.
  - rewrite (uploadVideo_saved req file w Hfile). cbn zeta.
    destruct (findById (up_userId req) (users w)) as [u|]; cbn [snd].
    + destruct w; cbn. by rewrite drop_app_length.
    + destruct w; cbn. by rewrite drop_all.
  - unfold uploadVideo. rewrite Hfile. cbn. by rewrite drop_all.
Qed.

Lemma personal_room_inj f x : "user_" +:+ f = "user_" +:+ x → f = x.
Proof. intros Heq. by simplify_eq/=. Qed.

(** X4. An upload by an owner who has [f] among the followers reaches a
    connected socket that registered for [f]: one of the packets the
    handler emits carries the saved video and is addressed to a room of
    which that socket is a member. *)
Theorem upload_reaches_registered_follower
        (es : list Rooms.Event) sid f req file w u :
  let a := Rooms.onRegister (Rooms.run Rooms.empty es) sid f in
  Rooms.connected (Rooms.run Rooms.empty es) sid →
  up_file req = Some file →
  findById (up_userId req) (users w) = Some u →
  f ∈ or_empty (followers u) →
  (∀ e, io_fault (up_io req) e = None) →
  ∃ e, e ∈ drop (length (emitted w)) (emitted (uploadVideo req w).2) ∧
       payload e = uploaded req file w ∧
       event e = "feed-update-following" ∧
       sid ∈ recipients a e.
Proof.
  intros a Hc Hfile Hu Hf Hok.
  exists (following_packet (uploaded req file w) f).
  rewrite upload_emits, Hfile, Hu.
  destruct (delivered_all (up_io req)
              (following_packet (uploaded req file w) <$> or_empty (followers u))
              Hok) as [-> _].
  split_and!; try done.
  - by apply list_elem_of_fmap_2.
  - unfold recipients, a. cbn [room following_packet].
    rewrite onRegister_connected by done.
    rewrite !membersOf_add.
    repeat case_decide; set_solver.
Qed.

Lemma upload_reaches_registered_follower_witness :
  ∃ e, e ∈ drop (length (emitted ann_world))
                (emitted (uploadVideo ann_upload ann_world).2) ∧
       payload e = uploaded ann_upload (mkFile "f2") ann_world ∧
       event e = "feed-update-following" ∧
       "s1" ∈ recipients
                (Rooms.onRegister (Rooms.run Rooms.empty [Rooms.Connect "s1"])
                                  "s1" "u3") e.
Proof.
  apply (upload_reaches_registered_follower [Rooms.Connect "s1"] "s1" "u3"
           ann_upload (mkFile "f2") ann_world
           (mkUser "u1" "ann" "ann@example.org" "h1" (Some ["u2"; "u3"]) None
                   (Some 0) (Some 0))).
  - unfold Rooms.connected. vm_compute. eauto.
  - reflexivity.
  - reflexivity.
  - cbn. set_solver.
  - reflexivity.
Defined.

(** X5. Every packet a run of the job emits is a trending update and
    reaches every connected socket that has registered, for whatever user
    id. *)
Theorem trending_reaches_registered_sockets
        (es : list Rooms.Event) sid uid io w e :
  let a := Rooms.onRegister (Rooms.run Rooms.empty es) sid uid in
  Rooms.connected (Rooms.run Rooms.empty es) sid →
  e ∈ job_emits io w →
  event e = "feed-update-trending" ∧ sid ∈ recipients a e.
Proof.
  intros a Hc He. rewrite job_emits_eq in He.
  destruct (threshold_of (env w)) as [|t]; [by apply elem_of_nil in He|].
  apply delivered_subset, list_elem_of_fmap in He as (v & -> & _).
  split; [done|].
  unfold recipients, a. cbn [room trending_packet].
  rewrite onRegister_connected by done.
  rewrite !membersOf_add. repeat case_decide; set_solver.
Qed.

Lemma trending_reaches_registered_sockets_witness :
  "s1" ∈ recipients
           (Rooms.onRegister (Rooms.run Rooms.empty [Rooms.Connect "s1"])
                             "s1" "u3")
           (trending_packet (clip "d" 90)).
Proof.
  apply (trending_reaches_registered_sockets [Rooms.Connect "s1"] "s1" "u3"
           reliable example_world (trending_packet (clip "d" 90))).
  - unfold Rooms.connected. vm_compute. eauto.
  - rewrite job_emits_eq. vm_compute. set_solver.
Defined.

Lemma roomsOf_registered_as (es : list Rooms.Event) sid x :
  Forall (λ e, ∀ uid, e = Rooms.Register sid uid → uid = x) es →
  Rooms.roomsOf (Rooms.run Rooms.empty es) sid
    ⊆ {[ sid; "user_" +:+ x; "trending" ]}.
Proof.
  intros Hes. induction es as [|e es IH] using rev_ind.
  - unfold Rooms.roomsOf. cbn. set_solver.
  - apply Forall_app in Hes as [Hes He]. rewrite Forall_singleton in He.
    specialize (IH Hes). rewrite run_snoc.
    destruct e as [s|s u|s]; cbn.
    + unfold Rooms.onConnection. rewrite roomsOf_add.
      case_decide; [subst; set_solver | done].
    + destruct (decide (s = sid)) as [->|Hne].
      * rewrite (He u eq_refl). unfold Rooms.onRegister.
        case_decide; [|done]. rewrite !roomsOf_add.
        rewrite !decide_True by done. set_solver.
      * by rewrite roomsOf_onRegister_other.
    + unfold Rooms.onDisconnect. rewrite roomsOf_delAll.
      case_decide; [set_solver | done].
Qed.



(** ** Uploads and likes, on every path *)

Lemma emitted_set_emitted es w : emitted (set_emitted es w) = es.
Proof. done. Qed.

Lemma videos_set_emitted es w : videos (set_emitted es w) = videos w.
Proof. done. Qed.

Lemma videos_set_videos vs w : videos (set_videos vs w) = vs.
Proof. done. Qed.

Lemma upload_world req w :
  let w' := (uploadVideo req w).2 in
  videos w' = videos w ++ match up_file req with
                          | Some file => [uploaded req file w]
                          | None => []
                          end ∧
  users w' = users w ∧ console w' = console w ∧ env w' = env w ∧
  clock w' = clock w.
Proof.
  destruct (up_file req) as [file|] eqn:Hfile.
  - rewrite (uploadVideo_saved req file w Hfile). cbn zeta.
    destruct (findById (up_userId req) (users w)); by destruct w.
  - unfold uploadVideo. rewrite Hfile. cbn. by rewrite app_nil_r.
Qed.

(** X7. For a request whose user id is a well-formed ObjectId or which
    has no file, [uploadVideo] always answers and never throws. It stores
    one new video exactly when the request has a file, also when the
    owner is missing or an emit throws afterwards; without a file it
    answers 400 and changes nothing. It never touches the users or the
    console. *)
Theorem upload_saves_exactly_when_file req w :
  (is_Some (up_file req) → is_ObjectId (up_userId req) = true) →
  let w' := (uploadVideo req w).2 in
  (∃ r, (uploadVideo req w).1 = Return r) ∧
  videos w' = videos w ++ match up_file req with
                          | Some file => [uploaded req file w]
                          | None => []
                          end ∧
  users w' = users w ∧ console w' = console w ∧
  (up_file req = None →
   uploadVideo req w = (Return (mkResponse 400 (JError "No file")), w)).
Proof.
  intros _ w'. destruct (upload_world req w) as (Hv & Hu & Hc & _ & _).
  split_and!; try done.
  - destruct (up_file req) as [file|] eqn:Hfile.
    + rewrite (uploadVideo_saved req file w Hfile). cbn zeta.
      destruct (findById (up_userId req) (users w)); cbn; eauto.
    + unfold uploadVideo. rewrite Hfile. cbn. eauto.
  - intros Hfile. unfold uploadVideo. by rewrite Hfile.
Qed.

Lemma upload_saves_exactly_when_file_witness :
  videos (uploadVideo ghost_upload example_world).2 =
  videos example_world ++ [uploaded ghost_upload (mkFile "f1") example_world].
Proof.
  apply (upload_saves_exactly_when_file ghost_upload example_world).
  intros _. reflexivity.
Defined.

(** X8. When an emit throws during the notification of an upload, the
    followers before the throwing one have been notified, the ones after
    it have not, the video stays stored, and the request is answered with
    status 500 and the message of the exception; without a throw the
    answer is the video. *)
Theorem upload_stops_at_first_throw req file w u :
  up_file req = Some file →
  findById (up_userId req) (users w) = Some u →
  let video := uploaded req file w in
  let ps := following_packet video <$> or_empty (followers u) in
  let w' := (uploadVideo req w).2 in
  ∃ sent rest,
    ps = sent ++ rest ∧
    emitted w' = emitted w ++ sent ∧
    Forall (λ e, io_fault (up_io req) e = None) sent ∧
    video ∈ videos w' ∧
    match rest with
    | [] => (uploadVideo req w).1 = Return (json (JVideo video))
    | e :: _ =>
        ∃ err, io_fault (up_io req) e = Some err ∧
               (uploadVideo req w).1 =
                 Return (mkResponse 500 (JError (message err)))
    end.
Proof.
  intros Hfile Hu video ps w'. unfold w'.
  rewrite (uploadVideo_saved req file w Hfile). cbn zeta. rewrite Hu.
  fold video ps. cbn [fst snd].
  destruct (delivered_prefix (up_io req) ps) as (rest & Heq & Hall & Hff).
  exists (delivered (up_io req) ps), rest. split_and!; try done.
  - rewrite videos_set_emitted, videos_set_videos.
    apply elem_of_app. right. by left.
  - destruct (first_fault (up_io req) ps) as [err|].
    + destruct Hff as (e & rest' & -> & He). by exists err.
    + by subst rest.
Qed.

Lemma upload_stops_at_first_throw_witness :
  (uploadVideo
     (mkUploadReq "t" "u1" (Some (mkFile "f3"))
        (mkIo (λ e, if decide (room e = "user_u3")
                    then Some relay_unavailable else None)))
     ann_world).1 = Return (mkResponse 500 (JError "RelayUnavailable")).
Proof.
  destruct (upload_stops_at_first_throw
              (mkUploadReq "t" "u1" (Some (mkFile "f3"))
                 (mkIo (λ e, if decide (room e = "user_u3")
                             then Some relay_unavailable else None)))
              (mkFile "f3") ann_world
              (mkUser "u1" "ann" "ann@example.org" "h1" (Some ["u2"; "u3"])
                      None (Some 0) (Some 0))
              eq_refl eq_refl) as (sent & rest & _).
  reflexivity.
Defined.

Lemma gte_fresh_upload req file w t : 0 < t → ¬ gte t (uploaded req file w).
Proof. intros Ht. unfold gte. cbn. lia. Qed.

(** X9. A new upload starts with 0 likes: with a positive threshold the
    next run of the job emits exactly what it would have emitted without
    the upload. *)
Theorem fresh_upload_is_not_trending req w io t :
  threshold_of (env w) = Num t → 0 < t →
  job_emits io (uploadVideo req w).2 = job_emits io w.
Proof.
  intros Hthr Ht. rewrite !job_emits_eq.
  destruct (upload_world req w) as (Hv & _ & _ & He & _).
  rewrite He, Hthr, Hv. do 2 f_equal. unfold find_gte_sorted.
  rewrite filter_app.
  destruct (up_file req) as [file|]; [|by rewrite app_nil_r].
  rewrite filter_cons, decide_False by by apply gte_fresh_upload.
  by rewrite filter_nil, app_nil_r.
Qed.

Lemma fresh_upload_is_not_trending_witness :
  job_emits reliable (uploadVideo ghost_upload example_world).2 =
  job_emits reliable example_world.
Proof.
  apply (fresh_upload_is_not_trending ghost_upload example_world reliable 50);
    [reflexivity | lia].
Defined.

Lemma fmap_id_updateById {D} `{Document D} id (f : D → D) (ds : list D) :
  (∀ d, doc_id d = id → doc_id (f d) = id) →
  doc_id <$> updateById id f ds = doc_id <$> ds.
Proof.
  intros Hf. induction ds as [|d ds IH]; [done|]. cbn.
  destruct (decide (doc_id d = id)) as [Hd|Hd]; cbn.
  - by rewrite (Hf d Hd), Hd.
  - by rewrite IH.
Qed.



Lemma like_n_S id n w : like_n id (S n) w = (likeVideo id (like_n id n w)).2.
Proof. done. Qed.

Lemma like_n_found id n w v :
  findById id (videos w) = Some v →
  (- 2 ^ 53 ≤ default 0 (likes v))%Z →
  (default 0 (likes v) + Z.of_nat n ≤ 2 ^ 53)%Z →
  ∃ v', findById id (videos (like_n id n w)) = Some v' ∧
        default 0 (likes v') = default 0 (likes v) + Z.of_nat n ∧
        ((0 < n)%nat → likes v' = Some (default 0 (likes v) + Z.of_nat n)) ∧
        title v' = title v ∧ url v' = url v ∧ user v' = user v ∧
        comments v' = comments v.
Proof.
  intros Hv Hlo Hhi. induction n as [|n IH].
  - exists v. cbn. split_and!; try done; lia.
  - destruct IH as (v1 & Hv1 & Hl & _ & Ht & Hu & Hus & Hc); [lia|].
    assert (Hn : countable (default 0 (likes v1)))
      by (unfold countable; lia).
    rewrite like_n_S, (likeVideo_countable id _ v1 Hv1 Hn). cbn [snd].
    exists (liked (clock (like_n id n w)) v1). split.
    + rewrite videos_set_videos.
      apply (findById_updateById_eq id (λ _, liked _ v1) _ v1 Hv1).
      by apply (findById_Some _ _ _ Hv1).
    + cbn. rewrite or_zero_default, js_add1_countable by done.
      rewrite Hl. split_and!; try done; try lia.
      intros _. f_equal. lia.
Qed.

(** X11. [n] likes of the same video, one after the other, raise its
    count by [n], a missing count being 0, as long as the count stays
    within the integers a double holds (from -2^53 to 2^53); title, url,
    user and comments stay as they were. *)
Theorem likes_accumulate id n w v :
  findById id (videos w) = Some v →
  (- 2 ^ 53 ≤ default 0 (likes v))%Z →
  (default 0 (likes v) + Z.of_nat n ≤ 2 ^ 53)%Z →
  ∃ v', findById id (videos (like_n id n w)) = Some v' ∧
        default 0 (likes v') = default 0 (likes v) + Z.of_nat n ∧
        ((0 < n)%nat → likes v' = Some (default 0 (likes v) + Z.of_nat n)) ∧
        title v' = title v ∧ url v' = url v ∧ user v' = user v ∧
        comments v' = comments v.
Proof. apply like_n_found. Qed.

Lemma likes_accumulate_witness :
  ∃ v', findById "c" (videos (like_n "c" 12 example_world)) = Some v' ∧
        default 0 (likes v') = 52.
Proof.
  destruct (likes_accumulate "c" 12 example_world (clip "c" 40) eq_refl)
    as (v' & Hv' & Hl & _); [cbn; lia | cbn; lia |].
  exists v'. split; [exact Hv' | exact Hl].
Defined.

Lemma like_n_env id n w : env (like_n id n w) = env w.
Proof.
  induction n as [|n IH]; [done|]. rewrite like_n_S, <- IH.
  destruct (findById id (videos (like_n id n w))) as [v|] eqn:Hv.
  - rewrite (likeVideo_found _ _ _ Hv). by case_decide.
  - by rewrite (likeVideo_missing _ _ Hv).
Qed.

(** X12. Likes make a video trending: once [n > 0] likes have brought
    its count to the threshold, the count staying within the integers a
    double holds, and no more than 10 videos are at or above the
    threshold, the next run of the job emits it. *)
Theorem enough_likes_make_trending id n w v t :
  findById id (videos w) = Some v →
  threshold_of (env w) = Num t →
  (0 < n)%nat →
  (- 2 ^ 53 ≤ default 0 (likes v))%Z →
  (default 0 (likes v) + Z.of_nat n ≤ 2 ^ 53)%Z →
  (t ≤ default 0 (likes v) + Z.of_nat n)%Z →
  let w' := like_n id n w in
  (length (filter (gte t) (videos w')) ≤ 10)%nat →
  ∃ v', findById id (videos w') = Some v' ∧
        likes v' = Some (default 0 (likes v) + Z.of_nat n) ∧
        trending_packet v' ∈ job_emits reliable w'.
Proof.
  intros Hv Hthr Hn Hlo Hhi Ht w' Hfew.
  destruct (like_n_found id n w v Hv Hlo Hhi) as (v' & Hv' & _ & Hl & _).
  specialize (Hl Hn). exists v'. split_and!; try done.
  rewrite job_emits_eq. unfold w'. rewrite like_n_env, Hthr.
  destruct (delivered_all reliable
              (trending_packet <$> find_gte_sorted t 10 (videos (like_n id n w)))
              (λ _, eq_refl)) as [-> _].
  apply list_elem_of_fmap_2. unfold find_gte_sorted.
  rewrite take_ge by by rewrite merge_sort_Permutation.
  rewrite merge_sort_Permutation. apply list_elem_of_filter. split.
  - unfold gte. by rewrite Hl.
  - by apply (findById_Some _ _ _ Hv').
Qed.

Lemma enough_likes_make_trending_witness :
  ∃ v', findById "c" (videos (like_n "c" 12 example_world)) = Some v' ∧
        likes v' = Some 52 ∧
        trending_packet v' ∈ job_emits reliable (like_n "c" 12 example_world).
Proof.
  apply (enough_likes_make_trending "c" 12 example_world (clip "c" 40) 50).
  - reflexivity.
  - reflexivity.
  - lia.
  - cbn. lia.
  - cbn. lia.
  - cbn. lia.
  - vm_compute. lia.
Defined.

(** ** Follows *)

Lemma updateById_missing {D} `{Document D} id (f : D → D) (ds : list D) :
  findById id ds = None → updateById id f ds = ds.
Proof.
  induction ds as [|d ds IH]; [done|]. cbn.
  case_decide; [done|]. intros Hd. by rewrite IH.
Qed.

Lemma set_users_id w : set_users (users w) w = w.
Proof. by destruct w. Qed.

Lemma users_set_users us w : users (set_users us w) = us.
Proof. done. Qed.

Lemma follow_target_updated req w t :
  userId req ≠ targetId req →
  findById (targetId req) (users w) = Some t →
  findById (targetId req) (users (follow req w).2) =
  Some (touch_user (clock w) (addToSet_followers (userId req) t)).
Proof.
  intros Hne Ht. rewrite (follow_run _ _ Hne). cbn [snd].
  rewrite users_set_users.
  rewrite findById_updateById_ne by done.
  apply (findById_updateById_eq (targetId req)
           (λ u, touch_user (clock w) (addToSet_followers (userId req) u))
           _ t Ht).
  by apply (findById_Some _ _ _ Ht).
Qed.

Lemma follow_follower_updated req w u :
  userId req ≠ targetId req →
  findById (userId req) (users w) = Some u →
  findById (userId req) (users (follow req w).2) =
  Some (touch_user (clock w) (addToSet_following (targetId req) u)).
Proof.
  intros Hne Hu. rewrite (follow_run _ _ Hne). cbn [snd].
  rewrite users_set_users.
  apply (findById_updateById_eq (userId req)
           (λ u, touch_user (clock w) (addToSet_following (targetId req) u))
           _ u); [|by apply (findById_Some _ _ _ Hu)].
  by rewrite findById_updateById_ne.
Qed.







(** ** The read endpoints *)

#[local] Instance created_desc_trans : Transitive created_desc.
Proof.
  intros a b c. unfold created_desc.
  destruct (v_createdAt a), (v_createdAt b), (v_createdAt c); try done; lia.
Qed.

#[local] Instance created_desc_total : Total created_desc.
Proof.
  intros a b. unfold created_desc.
  destruct (v_createdAt a), (v_createdAt b); try (by auto); lia.
Qed.

Lemma getFollowingVideos_found uid w u :
  findById uid (users w) = Some u →
  getFollowingVideos uid w =
  (Return (json (JVideos (find_by_owners (or_empty (following u)) (videos w)))),
   set_finds (S (finds w)) w).
Proof.
  intros Hu. unfold getFollowingVideos, issue_find. monad_unfold. cbn.
  by rewrite Hu.
Qed.

Lemma elem_of_find_by_owners fs vs v :
  v ∈ find_by_owners fs vs ↔ v ∈ vs ∧ user v ∈ fs.
Proof.
  unfold find_by_owners. rewrite merge_sort_Permutation, list_elem_of_filter.
  unfold owned_by. tauto.
Qed.



(** X17. Follow, upload, read: after [follow] by an existing user of a
    well-formed ObjectId, a video uploaded under that id appears in the
    user's following feed, whether or not a user with the followed id
    exists and whether or not the upload request itself was answered
    with success. *)
Theorem followed_upload_appears_in_feed freq ureq file w u :
  is_ObjectId (targetId freq) = true →
  userId freq ≠ targetId freq →
  findById (userId freq) (users w) = Some u →
  up_userId ureq = targetId freq →
  up_file ureq = Some file →
  let w1 := (follow freq w).2 in
  let w2 := (uploadVideo ureq w1).2 in
  ∃ vs, (getFollowingVideos (userId freq) w2).1 = Return (json (JVideos vs)) ∧
        uploaded ureq file w1 ∈ vs.
Proof.
  intros _ Hne Hu Howner Hfile w1 w2.
  destruct (upload_world ureq w1) as (Hvs & Hus & _).
  fold w2 in Hvs, Hus. rewrite Hfile in Hvs.
  assert (Hu2 : findById (userId freq) (users w2) =
                Some (touch_user (clock w)
                        (addToSet_following (targetId freq) u))).
  { rewrite Hus. by apply follow_follower_updated. }
  rewrite (getFollowingVideos_found _ _ _ Hu2). cbn [fst].
  eexists. split; [done|].
  apply elem_of_find_by_owners. split.
  - rewrite Hvs. apply elem_of_app. right. by left.
  - cbn. rewrite Howner. apply addToSet_elem.
Qed.

Lemma followed_upload_appears_in_feed_witness :
  ∃ vs, (getFollowingVideos ann_id
           (uploadVideo (mkUploadReq "t" cid_id (Some (mkFile "f4")) reliable)
              (follow (mkFollowReq ann_id cid_id) feed_world).2).2).1 =
        Return (json (JVideos vs)) ∧
        uploaded (mkUploadReq "t" cid_id (Some (mkFile "f4")) reliable)
                 (mkFile "f4")
                 (follow (mkFollowReq ann_id cid_id) feed_world).2 ∈ vs.
Proof.
  apply (followed_upload_appears_in_feed (mkFollowReq ann_id cid_id)
           (mkUploadReq "t" cid_id (Some (mkFile "f4")) reliable) (mkFile "f4")
           feed_world
           (mkUser ann_id "ann" "ann@example.org" "h1" (Some [])
                   (Some [bob_id]) (Some 0) (Some 5)));
    [reflexivity | discriminate | reflexivity | reflexivity | reflexivity].
Defined.

(** X18. [getAllVideos] answers with at most 50 stored videos, newest
    first, none of the videos left out being newer than one listed; with
    50 videos or fewer in the store it lists them all. It changes
    nothing but the count of queries. *)
Theorem all_videos_newest_first w :
  ∃ vs, getAllVideos w = (Return (json (JVideos vs)), set_finds (S (finds w)) w) ∧
        length vs = Nat.min 50 (length (videos w)) ∧
        StronglySorted created_desc vs ∧
        (∀ v, v ∈ vs → v ∈ videos w) ∧
        ((length (videos w) ≤ 50)%nat → vs ≡ₚ videos w) ∧
        ∃ rest, vs ++ rest ≡ₚ videos w ∧
                ∀ x y, x ∈ vs → y ∈ rest → created_desc x y.
Proof.
  exists (take 50 (merge_sort created_desc (videos w))).
  split; [done|].
  set (sorted := merge_sort created_desc (videos w)).
  assert (Hperm : sorted ≡ₚ videos w) by apply merge_sort_Permutation.
  assert (Hsorted : StronglySorted created_desc sorted)
    by (apply StronglySorted_merge_sort; apply _).
  rewrite <- (take_drop 50 sorted) in Hsorted.
  split_and!.
  - by rewrite length_take, Hperm.
  - by eapply StronglySorted_app_1_l.
  - intros v Hv. apply subseteq_take in Hv. by rewrite Hperm in Hv.
  - intros Hle. rewrite take_ge by by rewrite Hperm. done.
  - exists (drop 50 sorted). split.
    + by rewrite take_drop.
    + intros x y. by apply StronglySorted_app_1_elem_of.
Qed.

Lemma all_videos_newest_first_witness :
  ∃ vs, getAllVideos example_world =
          (Return (json (JVideos vs)),
           set_finds (S (finds example_world)) example_world) ∧
        vs ≡ₚ videos example_world.
Proof.
  destruct (all_videos_newest_first example_world)
    as (vs & Hrun & _ & _ & _ & Hperm & _).
  exists vs. split; [exact Hrun|]. apply Hperm. cbn. lia.
Defined.

Lemma payload_trending_packets (vs : list Video) :
  payload <$> (trending_packet <$> vs) = vs.
Proof. induction vs as [|v vs IH]; [done|]. cbn. by rewrite IH. Qed.

(** X19. The job and the trending endpoint agree: with the same store
    and threshold and an [io] that does not throw, the videos a run of
    the job emits are the first 10 of the list the endpoint answers
    with. *)
Theorem job_emits_head_of_endpoint io w t :
  (∀ e, io_fault io e = None) →
  threshold_of (env w) = Num t →
  ∃ vs, getTrending w = (Return (json (JVideos vs)), set_finds (S (finds w)) w) ∧
        payload <$> job_emits io w = take 10 vs.
Proof.
  intros Hok Hthr. exists (find_gte_sorted t 20 (videos w)). split.
  - unfold getTrending, issue_find, find_result. monad_unfold. cbn.
    by rewrite Hthr.
  - rewrite job_emits_eq, Hthr.
    destruct (delivered_all io
                (trending_packet <$> find_gte_sorted t 10 (videos w)) Hok)
      as [-> _].
    rewrite payload_trending_packets.
    unfold find_gte_sorted. by rewrite take_take.
Qed.

Lemma job_emits_head_of_endpoint_witness :
  ∃ vs, getTrending example_world =
          (Return (json (JVideos vs)),
           set_finds (S (finds example_world)) example_world) ∧
        payload <$> job_emits reliable example_world = take 10 vs.
Proof.
  apply (job_emits_head_of_endpoint reliable example_world 50);
    [done | reflexivity].
Defined.

(** ** Runs of the job *)

Lemma after_job_emitted io w :
  emitted (after_job io w) = emitted w ++ job_emits io w.
Proof.
  rewrite job_emits_eq. unfold after_job.
  destruct (threshold_of (env w)) as [|t].
  - destruct w; cbn. by rewrite app_nil_r.
  - cbn zeta. destruct (first_fault io _); by destruct w.
Qed.

Lemma after_job_frame io w :
  videos (after_job io w) = videos w ∧ users (after_job io w) = users w ∧
  env (after_job io w) = env w ∧ clock (after_job io w) = clock w ∧
  finds (after_job io w) = match threshold_of (env w) with
                           | NaN => finds w
                           | Num _ => S (finds w)
                           end.
Proof.
  unfold after_job. destruct (threshold_of (env w)) as [|t].
  - by destruct w.
  - cbn zeta. destruct (first_fault io _); by destruct w.
Qed.

(** X20. The job keeps no memory of what it has sent: a second run over
    an unchanged store emits the same packets again, so after two runs
    the emits hold the batch twice. *)
Theorem job_republishes_everything io w :
  let w1 := (processTrending io w).2 in
  let w2 := (processTrending io w1).2 in
  job_emits io w1 = job_emits io w ∧
  emitted w2 = emitted w ++ job_emits io w ++ job_emits io w.
Proof.
  intros w1 w2. unfold w2, w1. rewrite !processTrending_run. cbn [snd].
  destruct (after_job_frame io w) as (Hv & _ & He & _).
  assert (Hsame : job_emits io (after_job io w) = job_emits io w)
    by (by rewrite !job_emits_eq, He, Hv).
  split; [done|].
  by rewrite !after_job_emitted, Hsame, app_assoc.
Qed.


(** ** The pages *)

Lemma feed_receive ev prev es :
  Feed.receive ev prev es =
  reverse (payload <$> filter (λ e, event e = ev) es) ++ prev.
Proof.
  revert prev. induction es as [|e es IH]; intros prev; [done|].
  unfold Feed.receive in *. cbn [foldl]. rewrite IH, filter_cons.
  case_decide; [|done].
  unfold Feed.on_update. rewrite fmap_cons, reverse_cons.
  by rewrite <- app_assoc.
Qed.

Lemma filter_trending_packets ev (vs : list Video) :
  filter (λ e, event e = ev) (trending_packet <$> vs) =
  if decide (ev = "feed-update-trending") then trending_packet <$> vs else [].
Proof.
  induction vs as [|v vs IH]; [by case_decide|].
  rewrite fmap_cons, filter_cons, IH. cbn [event trending_packet].
  repeat case_decide; congruence.
Qed.

(** X23. A page that listens for trending updates prepends each one as
    it arrives, so a batch of the job, emitted best first, lands in the
    page's list in reverse: the video with the fewest likes of the batch
    on top, the best one right above what the page showed before. A page
    that listens for following updates ignores the batch. *)
Theorem trending_batch_lands_reversed io w t prev :
  (∀ e, io_fault io e = None) →
  threshold_of (env w) = Num t →
  let top := find_gte_sorted t 10 (videos w) in
  Feed.receive "feed-update-trending" prev (job_emits io w) =
    reverse top ++ prev ∧
  Sorted (flip likes_desc) (reverse top) ∧
  Feed.receive "feed-update-following" prev (job_emits io w) = prev.
Proof.
  intros Hok Hthr top.
  assert (Hem : job_emits io w = trending_packet <$> top).
  { rewrite job_emits_eq, Hthr. unfold top.
    by destruct (delivered_all io
                   (trending_packet <$> find_gte_sorted t 10 (videos w)) Hok)
      as [-> _]. }
  rewrite !feed_receive, Hem, !filter_trending_packets. split_and!.
  - by rewrite decide_True, payload_trending_packets.
  - apply Sorted_reverse, StronglySorted_Sorted.
    by destruct (find_gte_sorted_spec t 10 (videos w)) as (_ & Hs & _).
  - by rewrite decide_False.
Qed.

Lemma trending_batch_lands_reversed_witness :
  likes_key <$> Feed.receive "feed-update-trending" []
                  (job_emits reliable example_world) = [60; 80; 90].
Proof.
  rewrite (proj1 (trending_batch_lands_reversed reliable example_world 50 []
                    (λ _, eq_refl) eq_refl)).
  reflexivity.
Defined.
